(** * Reach and frequency calculator

    A shallow embedding of [src/src/reach_frequency_calculator.py]
    (class [ReachFrequencyCalculator]) and the properties of its four
    stages.

    Conventions of the embedding:
    - Python [int] is [Z]; Python [float] is idealised as a real number
      [R] (no rounding, no overflow), and [np.exp] is the real
      exponential [exp].
    - An [int] that meets a [float] in an arithmetic operation is first
      converted to binary64, and Python raises [OverflowError] when the
      integer is too large for that.  The embedding has no such
      exception: a theorem that says when a run returns or raises takes
      [convertible_plan] as a hypothesis.  Rounding is not modelled
      either: an equation between real expressions holds of the
      program's floats up to rounding, and a strict inequality between
      them may hold of the floats only as a non-strict one.
    - A Python [dict] with string keys is a [gmap string _].  A loop over
      [d.items()] is a [map_fold] over the map: the code only sums and
      stores per key, so over the reals the visiting order cannot be
      observed.
    - An exception is a value [Raise e] of the [result] monad; a method
      of the class is a function from the object's state to a [result]
      of its return value and the new state.  The state of an object on
      which a method raised is dropped.
    - [a / b] on Python numbers raises [ZeroDivisionError] when [b] is
      zero: every division by a computed denominator goes through
      [pydiv]. *)

From Stdlib Require Import Reals Lra ZArith.
From stdpp Require Import gmap strings list fin_maps pretty.

Open Scope R_scope.

(** ** Decidable comparisons on the reals *)

#[global] Instance R_eq_dec : EqDecision R := Req_dec_T.
#[global] Instance Rlt_decision : RelDecision Rlt := Rlt_dec.
#[global] Instance Rle_decision : RelDecision Rle := Rle_dec.

(** ** Exceptions *)

Inductive exn : Type :=
  | ValueError (msg : string)
  | ZeroDivisionError.

Inductive result (A : Type) : Type :=
  | Ok (a : A)
  | Raise (e : exn).

Arguments Ok {A} a.
Arguments Raise {A} e.

#[global] Instance result_ret : MRet result := @Ok.
#[global] Instance result_bind : MBind result :=
  λ A B f r, match r with Ok a => f a | Raise e => Raise e end.

(** ** Python primitives *)

(** [a / b] *)
Definition pydiv (a b : R) : result R :=
  if decide (b = 0) then Raise ZeroDivisionError else Ok (a / b).

(** [max(a, b)]: the first argument unless the second is strictly greater *)
Definition pymax (a b : R) : R := if decide (a < b) then b else a.

(** [min(a, b)]: the first argument unless the second is strictly smaller *)
Definition pymin (a b : R) : R := if decide (b < a) then b else a.

(** [sum(d.values())] *)
Definition pysum (d : gmap string R) : R :=
  map_fold (λ _ v acc, acc + v) 0 d.

(** [range(lo, hi)] *)
Definition range (lo hi : Z) : list Z := seqZ lo (hi - lo).

(** [f"{i}+"] *)
Definition threshold_key (i : Z) : string := pretty i +:+ "+".

(** ** The calculator object *)

Record Calculator : Type := mkCalculator {
  total_universe : Z;
  total_impressions : Z;
  max_reach_percent : R;
  global_overlap_factor : R;
  distributed_impressions : gmap string Z;
  channel_penetration : gmap string R;
  efficiency_factors : gmap string R;
  channel_reach : gmap string R;
  channel_contributions : gmap string R;
  raw_total_reach : R;
  overlapped_reach : R;
  final_reach : R;
  average_frequency : R;
  effective_reach : gmap string R
}.

(** Assignments to the attributes the methods write. *)

Definition set_channel_reach (v : gmap string R) (c : Calculator) : Calculator :=
  mkCalculator (total_universe c) (total_impressions c) (max_reach_percent c)
    (global_overlap_factor c) (distributed_impressions c) (channel_penetration c)
    (efficiency_factors c) v (channel_contributions c) (raw_total_reach c)
    (overlapped_reach c) (final_reach c) (average_frequency c) (effective_reach c).

Definition set_channel_contributions (v : gmap string R) (c : Calculator) : Calculator :=
  mkCalculator (total_universe c) (total_impressions c) (max_reach_percent c)
    (global_overlap_factor c) (distributed_impressions c) (channel_penetration c)
    (efficiency_factors c) (channel_reach c) v (raw_total_reach c)
    (overlapped_reach c) (final_reach c) (average_frequency c) (effective_reach c).

Definition set_raw_total_reach (v : R) (c : Calculator) : Calculator :=
  mkCalculator (total_universe c) (total_impressions c) (max_reach_percent c)
    (global_overlap_factor c) (distributed_impressions c) (channel_penetration c)
    (efficiency_factors c) (channel_reach c) (channel_contributions c) v
    (overlapped_reach c) (final_reach c) (average_frequency c) (effective_reach c).

Definition set_final_reach (v : R) (c : Calculator) : Calculator :=
  mkCalculator (total_universe c) (total_impressions c) (max_reach_percent c)
    (global_overlap_factor c) (distributed_impressions c) (channel_penetration c)
    (efficiency_factors c) (channel_reach c) (channel_contributions c) (raw_total_reach c)
    (overlapped_reach c) v (average_frequency c) (effective_reach c).

Definition set_average_frequency (v : R) (c : Calculator) : Calculator :=
  mkCalculator (total_universe c) (total_impressions c) (max_reach_percent c)
    (global_overlap_factor c) (distributed_impressions c) (channel_penetration c)
    (efficiency_factors c) (channel_reach c) (channel_contributions c) (raw_total_reach c)
    (overlapped_reach c) (final_reach c) v (effective_reach c).

Definition set_effective_reach (v : gmap string R) (c : Calculator) : Calculator :=
  mkCalculator (total_universe c) (total_impressions c) (max_reach_percent c)
    (global_overlap_factor c) (distributed_impressions c) (channel_penetration c)
    (efficiency_factors c) (channel_reach c) (channel_contributions c) (raw_total_reach c)
    (overlapped_reach c) (final_reach c) (average_frequency c) v.

(** ** [__init__] *)

Definition init (total_universe total_impressions : Z)
    (max_reach_percent global_overlap_factor : R)
    (distributed_impressions : gmap string Z)
    (channel_penetration efficiency_factors : gmap string R) : result Calculator :=
  if decide (total_universe < 1000000)%Z then
    Raise (ValueError "Total universe must be at least 1,000,000")
  else if decide (total_impressions < 10000)%Z then
    Raise (ValueError "Total impressions must be at least 10,000")
  else if decide (¬ (0 <= max_reach_percent ∧ max_reach_percent <= 99.8)) then
    Raise (ValueError "Maximum reach percentage must be between 0 and 99.8")
  else if decide (¬ (0.35 <= global_overlap_factor ∧ global_overlap_factor <= 0.6)) then
    Raise (ValueError "Global overlap factor must be between 0.35 and 0.6")
  else
    Ok (mkCalculator total_universe total_impressions max_reach_percent
          global_overlap_factor distributed_impressions channel_penetration
          efficiency_factors ∅ ∅ 0 0 0 0 ∅).

(** ** [calculate_channel_reach] *)

(** One iteration of the first loop; the accumulator holds
    [self.channel_reach] and the local [total_channel_reach]. *)
Definition channel_reach_step (c : Calculator) (channel : string) (impressions : Z)
    (acc : result (gmap string R * R)) : result (gmap string R * R) :=
  '(reaches, total_channel_reach) ← acc;
  match channel_penetration c !! channel with
  | Some penetration =>
      let max_possible_reach := penetration * IZR (total_universe c) in
      if decide (0 < impressions)%Z then
        q ← pydiv (- IZR impressions) max_possible_reach;
        let reach := max_possible_reach * (1 - exp q) in
        let reach := pymin reach max_possible_reach in
        let reaches := <[channel := pymax 0 reach]> reaches in
        Ok (reaches, total_channel_reach + pymax 0 reach)
      else
        Ok (<[channel := 0]> reaches, total_channel_reach)
  | None => Ok (reaches, total_channel_reach)
  end.

Definition channel_reach_loop (c : Calculator) : result (gmap string R * R) :=
  map_fold (channel_reach_step c) (Ok (channel_reach c, 0)) (distributed_impressions c).

(** The second loop, in its two branches. *)
Definition contribution_step (total_channel_reach : R) (channel : string) (reach : R)
    (acc : result (gmap string R)) : result (gmap string R) :=
  contributions ← acc;
  q ← pydiv reach total_channel_reach;
  Ok (<[channel := q * 100]> contributions).

Definition contributions_loop (c : Calculator) (reaches : gmap string R)
    (total_channel_reach : R) : result (gmap string R) :=
  if decide (0 < total_channel_reach) then
    map_fold (contribution_step total_channel_reach)
      (Ok (channel_contributions c)) reaches
  else
    Ok (map_fold (λ channel _ contributions, <[channel := 0]> contributions)
          (channel_contributions c) reaches).

Definition calculate_channel_reach (c : Calculator)
    : result ((gmap string R * gmap string R) * Calculator) :=
  '(reaches, total_channel_reach) ← channel_reach_loop c;
  contributions ← contributions_loop c reaches total_channel_reach;
  Ok ((reaches, contributions),
      set_channel_contributions contributions (set_channel_reach reaches c)).

(** ** [calculate_total_reach] *)

(** [sum(self.efficiency_factors.get(channel, 0.5) * reach for ...)] *)
Definition efficiency_sum (c : Calculator) : R :=
  map_fold (λ channel reach acc,
              acc + default 0.5 (efficiency_factors c !! channel) * reach)
    0 (channel_reach c).

Definition calculate_total_reach (c : Calculator) : result (R * Calculator) :=
  if decide (channel_reach c = ∅) then
    Ok (0, set_final_reach 0 (set_raw_total_reach 0 c))
  else
    let raw := pysum (channel_reach c) in
    let overlap_reach := raw * (1 - global_overlap_factor c) in
    let total_weight := pysum (channel_reach c) in
    weighted_efficiency ←
      (if decide (0 < total_weight) then pydiv (efficiency_sum c) total_weight
       else Ok 0.5);
    let reach_after_efficiency := overlap_reach * weighted_efficiency in
    let max_possible_reach := (max_reach_percent c / 100) * IZR (total_universe c) in
    let final := pymin (pymax 0 reach_after_efficiency) max_possible_reach in
    Ok (final, set_final_reach final (set_raw_total_reach raw c)).

(** ** [calculate_frequency] *)

Definition calculate_frequency (c : Calculator) : result (R * Calculator) :=
  if decide (final_reach c <= 0) then
    Ok (0, set_average_frequency 0 c)
  else
    raw_frequency ← pydiv (IZR (total_impressions c)) (final_reach c);
    let min_frequency := 1 in
    let max_frequency := 20 in
    let frequency := pymin (pymax min_frequency raw_frequency) max_frequency in
    Ok (frequency, set_average_frequency frequency c).

(** ** [calculate_effective_reach] *)

(** One iteration of the loop; the accumulator holds the dictionary
    being filled and [current_reach]. *)
Definition effective_reach_step (c : Calculator) (x : R)
    (acc : gmap string R * R) (i : Z) : gmap string R * R :=
  let previous_reach := acc.2 in
  let current_reach := previous_reach * (1 - x) in
  (<[threshold_key i := pymin (pymax 0 current_reach) (max_reach_percent c)]> (acc.1),
   current_reach).

Definition calculate_effective_reach (c : Calculator) (max_frequency : Z)
    : result (gmap string R * Calculator) :=
  if decide (final_reach c <= 0 ∨ average_frequency c <= 0) then
    (* the dictionary is returned, [self.effective_reach] is not assigned *)
    Ok (foldl (λ d i, <[threshold_key i := 0]> d) ∅ (range 2 (max_frequency + 1)), c)
  else
    q ← pydiv (final_reach c) (IZR (total_universe c));
    let reach_percent := q * 100 in
    x ← pydiv 1 (pymax 1 (average_frequency c));
    let ladder :=
      (foldl (effective_reach_step c x) (∅, reach_percent)
         (range 2 (max_frequency + 1))).1 in
    Ok (ladder, set_effective_reach ladder c).

(** ** [run_all_calculations] *)

Module Results.
Record t : Type := mk {
  channel_contributions : gmap string R;
  raw_reach_percent : R;
  overlapped_reach_percent : R;
  final_reach : R;
  final_reach_percent : R;
  average_frequency : R;
  effective_reach : gmap string R
}.
End Results.

Definition run_all_calculations (c : Calculator) : result (Results.t * Calculator) :=
  '(_, c) ← calculate_channel_reach c;
  '(_, c) ← calculate_total_reach c;
  '(_, c) ← calculate_frequency c;
  '(_, c) ← calculate_effective_reach c 6;
  raw_q ← pydiv (raw_total_reach c) (IZR (total_universe c));
  overlapped_q ← pydiv (overlapped_reach c) (IZR (total_universe c));
  final_q ← pydiv (final_reach c) (IZR (total_universe c));
  Ok (Results.mk (channel_contributions c) (raw_q * 100) (overlapped_q * 100)
        (final_reach c) (final_q * 100) (average_frequency c) (effective_reach c),
      c).

(** ** Auxiliary notions used in the statements *)

(** What the first loop of [calculate_channel_reach] stores for a channel
    with the given penetration and impressions, when its division
    succeeds. *)
Definition channel_value (c : Calculator) (penetration : R) (impressions : Z) : R :=
  let max_possible_reach := penetration * IZR (total_universe c) in
  if decide (0 < impressions)%Z then
    pymax 0 (pymin (max_possible_reach
                    * (1 - exp (- IZR impressions / max_possible_reach)))
               max_possible_reach)
  else 0.

(** No channel that has impressions and a penetration entry has an
    addressable ceiling [penetration * total_universe] equal to zero. *)
Definition addressable (c : Calculator) : Prop :=
  ∀ channel impressions penetration,
    distributed_impressions c !! channel = Some impressions →
    channel_penetration c !! channel = Some penetration →
    (0 < impressions)%Z →
    penetration * IZR (total_universe c) ≠ 0.

(** A Python [int] converts to binary64 by rounding to nearest, ties to
    even; the conversion raises [OverflowError] when the rounded value is
    not finite, that is for a magnitude of [2^1024 - 2^970] or more. *)
Definition float_convertible (n : Z) : Prop :=
  (Z.abs n < 2 ^ 1024 - 2 ^ 970)%Z.

(** Every integer of the plan that the stages use in float arithmetic
    converts. *)
Definition convertible_plan (c : Calculator) : Prop :=
  float_convertible (total_universe c)
  ∧ float_convertible (total_impressions c)
  ∧ map_Forall (λ (_ : string) impressions, float_convertible impressions)
      (distributed_impressions c).

(** [clamp v lo hi]: [v] brought into [[lo, hi]]. *)
Definition clamp (v lo hi : R) : R := Rmin (Rmax lo v) hi.

(** A state on which only the last two stages are still to run. *)
Definition reached_state (final_reach average_frequency : R) : Calculator :=
  mkCalculator 1000000 1000000 90 0.5 ∅ ∅ ∅ ∅ ∅ 0 0 final_reach average_frequency ∅.

(** The bounds of the data model on a plan: the four scalars as the
    constructor checks them, impressions non-negative, penetrations and
    efficiency factors in [[0, 1]]. *)
Definition valid_plan (c : Calculator) : Prop :=
  (1000000 ≤ total_universe c)%Z
  ∧ (10000 ≤ total_impressions c)%Z
  ∧ 0 <= max_reach_percent c <= 99.8
  ∧ 0.35 <= global_overlap_factor c <= 0.6
  ∧ map_Forall (λ _ i, (0 ≤ i)%Z) (distributed_impressions c)
  ∧ map_Forall (λ _ p, 0 <= p <= 1) (channel_penetration c)
  ∧ map_Forall (λ _ e, 0 <= e <= 1) (efficiency_factors c).

(** The object the constructor builds from a plan. *)
Definition construct (plan : Calculator) : result Calculator :=
  init (total_universe plan) (total_impressions plan) (max_reach_percent plan)
    (global_overlap_factor plan) (distributed_impressions plan)
    (channel_penetration plan) (efficiency_factors plan).

(** A plan with the single channel ["A"]: universe and total impressions
    1,000,000, ceiling 90 %, overlap factor 0.5, efficiency 0.7. *)
Definition single_channel_plan (impressions : Z) (penetration : R) : Calculator :=
  mkCalculator 1000000 1000000 90 0.5
    {["A" := impressions]} {["A" := penetration]} {["A" := 0.7]}
    ∅ ∅ 0 0 0 0 ∅.

(** A plan with two channels, each addressing the whole universe and
    each carrying 1,000,000 impressions. *)
Definition two_channel_plan : Calculator :=
  mkCalculator 1000000 2000000 90 0.5
    (<["A" := 1000000%Z]> {["B" := 1000000%Z]})
    (<["A" := 1]> {["B" := 1]})
    (<["A" := 1]> {["B" := 1]})
    ∅ ∅ 0 0 0 0 ∅.

(** The first loop of [calculate_channel_reach] over the entries [m],
    started on an empty [channel_reach]. *)
Definition first_loop (c : Calculator) (m : gmap string Z)
    : result (gmap string R * R) :=
  map_fold (channel_reach_step c) (Ok (∅, 0)) m.

(** ** The caller in [streamlit-gui.py] *)

(** The two tables [create_gui] passes to the constructor. *)
Definition gui_channel_penetration : gmap string R :=
  list_to_map
    [("OOH", 0.08); ("CTV", 0.75); ("Creators", 0.17);
     ("Music Streaming", 0.686); ("Programmatic", 0.941); ("Display", 0.941);
     ("Social", 0.913); ("Search", 0.65)].

Definition gui_efficiency_factors : gmap string R :=
  list_to_map
    [("OOH", 0.5); ("CTV", 0.8); ("Creators", 0.8);
     ("Music Streaming", 0.7); ("Programmatic", 0.3); ("Display", 0.6);
     ("Social", 0.6); ("Search", 0.7)].

(** What the "Calculate Results" button of [create_gui] computes from the
    widget values and the edited impressions table: the constructor call
    and the run.  An exception leaves [create_gui] uncaught; the
    rendering of the result is not part of the model. *)
Definition gui_calculate (total_universe total_impressions : Z)
    (max_reach_percent global_overlap_factor : R)
    (distributed_impressions : gmap string Z) : result Results.t :=
  calculator ← init total_universe total_impressions max_reach_percent
                 global_overlap_factor distributed_impressions
                 gui_channel_penetration gui_efficiency_factors;
  '(results, _) ← run_all_calculations calculator;
  Ok results.

(** ** The class of [reach-frequency-calculator.py]

    The second file of the repository holds an earlier class of the same
    name, without validation, guards or clamps.  Its arithmetic mixes
    built-in numbers with NumPy scalars, and the two divide by zero
    differently: [int] and [float] raise [ZeroDivisionError], while a
    division in which one operand is an [np.float64] gives [inf] or [nan]
    with a warning.  A number therefore carries its kind, and a run that
    produces [inf] or [nan] ends in [NonFinite]: the model says nothing
    about what the code does after that point.  A [KeyError] does not
    carry its key. *)

Module Legacy.

Inductive exn : Type :=
  | ZeroDivisionError
  | KeyError.

Inductive outcome (A : Type) : Type :=
  | Ok (a : A)
  | Raise (e : exn)
  | NonFinite.

Arguments Ok {A} a.
Arguments Raise {A} e.
Arguments NonFinite {A}.

#[global] Instance outcome_bind : MBind outcome :=
  λ A B f r,
    match r with Ok a => f a | Raise e => Raise e | NonFinite => NonFinite end.

(** A number and whether it is an [np.float64]. *)
Record num : Type := Num { val : R; numpy : bool }.

Definition py (r : R) : num := Num r false.
Definition np (r : R) : num := Num r true.

(** [a * b]: a NumPy scalar as soon as one operand is one. *)
Definition mul (a b : num) : num := Num (val a * val b) (numpy a || numpy b).

(** [a / b] *)
Definition div (a b : num) : outcome num :=
  if decide (val b = 0) then
    if numpy a || numpy b then NonFinite else Raise ZeroDivisionError
  else Ok (Num (val a / val b) (numpy a || numpy b)).

(** [min(a, b)]: the first argument unless the second is strictly smaller *)
Definition min (a b : num) : num := if decide (val b < val a) then b else a.

(** [sum(d.values())] of a dictionary of [np.float64]: the [int] 0 when
    it is empty. *)
Definition sum (d : gmap string R) : num :=
  if decide (d = ∅) then py 0 else np (pysum d).

(** The entries of [channel_reach] and [channel_contributions] are written
    by [calculate_channel_reach] only, as [np.float64]. *)
Record Calculator : Type := mkCalculator {
  total_universe : Z;
  total_impressions : Z;
  max_reach_percent : R;
  global_overlap_factor : R;
  distributed_impressions : gmap string Z;
  channel_penetration : gmap string R;
  efficiency_factors : gmap string R;
  channel_reach : gmap string R;
  channel_contributions : gmap string R;
  raw_total_reach : num;
  overlapped_reach : num;
  final_reach : num;
  average_frequency : num;
  effective_reach : gmap string R
}.

Definition set_channel_reach (v : gmap string R) (c : Calculator) : Calculator :=
  mkCalculator (total_universe c) (total_impressions c) (max_reach_percent c)
    (global_overlap_factor c) (distributed_impressions c) (channel_penetration c)
    (efficiency_factors c) v (channel_contributions c) (raw_total_reach c)
    (overlapped_reach c) (final_reach c) (average_frequency c) (effective_reach c).

Definition set_channel_contributions (v : gmap string R) (c : Calculator) : Calculator :=
  mkCalculator (total_universe c) (total_impressions c) (max_reach_percent c)
    (global_overlap_factor c) (distributed_impressions c) (channel_penetration c)
    (efficiency_factors c) (channel_reach c) v (raw_total_reach c)
    (overlapped_reach c) (final_reach c) (average_frequency c) (effective_reach c).

Definition set_raw_total_reach (v : num) (c : Calculator) : Calculator :=
  mkCalculator (total_universe c) (total_impressions c) (max_reach_percent c)
    (global_overlap_factor c) (distributed_impressions c) (channel_penetration c)
    (efficiency_factors c) (channel_reach c) (channel_contributions c) v
    (overlapped_reach c) (final_reach c) (average_frequency c) (effective_reach c).

Definition set_overlapped_reach (v : num) (c : Calculator) : Calculator :=
  mkCalculator (total_universe c) (total_impressions c) (max_reach_percent c)
    (global_overlap_factor c) (distributed_impressions c) (channel_penetration c)
    (efficiency_factors c) (channel_reach c) (channel_contributions c) (raw_total_reach c)
    v (final_reach c) (average_frequency c) (effective_reach c).

Definition set_final_reach (v : num) (c : Calculator) : Calculator :=
  mkCalculator (total_universe c) (total_impressions c) (max_reach_percent c)
    (global_overlap_factor c) (distributed_impressions c) (channel_penetration c)
    (efficiency_factors c) (channel_reach c) (channel_contributions c) (raw_total_reach c)
    (overlapped_reach c) v (average_frequency c) (effective_reach c).

Definition set_average_frequency (v : num) (c : Calculator) : Calculator :=
  mkCalculator (total_universe c) (total_impressions c) (max_reach_percent c)
    (global_overlap_factor c) (distributed_impressions c) (channel_penetration c)
    (efficiency_factors c) (channel_reach c) (channel_contributions c) (raw_total_reach c)
    (overlapped_reach c) (final_reach c) v (effective_reach c).

Definition set_effective_reach (v : gmap string R) (c : Calculator) : Calculator :=
  mkCalculator (total_universe c) (total_impressions c) (max_reach_percent c)
    (global_overlap_factor c) (distributed_impressions c) (channel_penetration c)
    (efficiency_factors c) (channel_reach c) (channel_contributions c) (raw_total_reach c)
    (overlapped_reach c) (final_reach c) (average_frequency c) v.

(** [__init__]: no check. *)
Definition init (total_universe total_impressions : Z)
    (max_reach_percent global_overlap_factor : R)
    (distributed_impressions : gmap string Z)
    (channel_penetration efficiency_factors : gmap string R) : Calculator :=
  mkCalculator total_universe total_impressions max_reach_percent
    global_overlap_factor distributed_impressions channel_penetration
    efficiency_factors ∅ ∅ (py 0) (py 0) (py 0) (py 0) ∅.

(** [calculate_channel_reach] *)

Definition channel_reach_step (c : Calculator) (channel : string) (impressions : Z)
    (acc : outcome (gmap string R)) : outcome (gmap string R) :=
  reaches ← acc;
  match channel_penetration c !! channel with
  | Some penetration =>
      let max_possible_reach := penetration * IZR (total_universe c) in
      q ← div (py (- IZR impressions)) (py (IZR (total_universe c)));
      Ok (<[channel := max_possible_reach * (1 - exp (val q))]> reaches)
  | None => Ok reaches
  end.

Definition contribution_step (raw_total_reach : num) (channel : string) (reach : R)
    (acc : outcome (gmap string R)) : outcome (gmap string R) :=
  contributions ← acc;
  q ← div (np reach) raw_total_reach;
  Ok (<[channel := val q * 100]> contributions).

Definition calculate_channel_reach (c : Calculator)
    : outcome ((gmap string R * gmap string R) * Calculator) :=
  reaches ← map_fold (channel_reach_step c) (Ok (channel_reach c))
              (distributed_impressions c);
  let raw := sum reaches in
  contributions ← map_fold (contribution_step raw)
                    (Ok (channel_contributions c)) reaches;
  Ok ((reaches, contributions),
      set_channel_contributions contributions
        (set_raw_total_reach raw (set_channel_reach reaches c))).

(** [calculate_total_reach] *)

(** [sum(self.efficiency_factors[channel] * reach for ...)] *)
Definition efficiency_sum (c : Calculator) : outcome num :=
  map_fold (λ channel reach acc,
              a ← acc;
              match efficiency_factors c !! channel with
              | Some e => Ok (np (val a + e * reach))
              | None => Raise KeyError
              end)
    (Ok (py 0)) (channel_reach c).

Definition calculate_total_reach (c : Calculator) : outcome (num * Calculator) :=
  let overlapped := mul (raw_total_reach c) (py (1 - global_overlap_factor c)) in
  weighted ← efficiency_sum c;
  weighted_efficiency ← div weighted (raw_total_reach c);
  let reach_after_efficiency := mul overlapped weighted_efficiency in
  let max_possible_reach :=
    py (max_reach_percent c / 100 * IZR (total_universe c)) in
  let final := min reach_after_efficiency max_possible_reach in
  Ok (final, set_final_reach final (set_overlapped_reach overlapped c)).

(** [calculate_frequency] *)

Definition calculate_frequency (c : Calculator) : outcome (num * Calculator) :=
  if decide (0 < val (final_reach c)) then
    frequency ← div (py (IZR (total_impressions c))) (final_reach c);
    Ok (frequency, set_average_frequency frequency c)
  else
    Ok (py 0, set_average_frequency (py 0) c).

(** [calculate_effective_reach] *)

Definition effective_reach_step (x : R) (acc : gmap string R * R) (i : Z)
    : gmap string R * R :=
  let previous_reach := acc.2 in
  let current_reach := previous_reach * (1 - x) in
  (<[threshold_key i := current_reach]> (acc.1), current_reach).

Definition calculate_effective_reach (c : Calculator) (max_frequency : Z)
    : outcome (gmap string R * Calculator) :=
  q ← div (final_reach c) (py (IZR (total_universe c)));
  let reach_percent := val q * 100 in
  x ← div (py 1) (average_frequency c);
  let ladder :=
    (foldl (effective_reach_step (val x)) (effective_reach c, reach_percent)
       (range 2 (max_frequency + 1))).1 in
  Ok (ladder, set_effective_reach ladder c).

(** [run_all_calculations] *)

Definition run_all_calculations (c : Calculator) : outcome (Results.t * Calculator) :=
  '(_, c) ← calculate_channel_reach c;
  '(_, c) ← calculate_total_reach c;
  '(_, c) ← calculate_frequency c;
  '(_, c) ← calculate_effective_reach c 6;
  raw_q ← div (raw_total_reach c) (py (IZR (total_universe c)));
  overlapped_q ← div (overlapped_reach c) (py (IZR (total_universe c)));
  final_q ← div (final_reach c) (py (IZR (total_universe c)));
  Ok (Results.mk (channel_contributions c) (val raw_q * 100)
        (val overlapped_q * 100) (val (final_reach c)) (val final_q * 100)
        (val (average_frequency c)) (effective_reach c),
      c).

(** What the first loop of [calculate_channel_reach] stores for the
    entries [m] when [total_universe] is not 0. *)
Definition reaches_of (c : Calculator) (m : gmap string Z) : gmap string R :=
  map_imap (λ channel impressions,
              penetration ← channel_penetration c !! channel;
              Some (penetration * IZR (total_universe c)
                    * (1 - exp (- IZR impressions / IZR (total_universe c)))))
    m.

(** A plan with the single channel ["A"] (1,000,000 impressions,
    penetration 1) on a universe of 1,000,000, ceiling 90 %, overlap
    factor 0.5. *)
Definition single_channel (total_impressions : Z)
    (efficiency_factors : gmap string R) : Calculator :=
  init 1000000 total_impressions 90 0.5
    {["A" := 1000000%Z]} {["A" := 1]} efficiency_factors.

End Legacy.

(** ** Validation *)

Lemma init_Ok U I mrp gof di cp ef :
  (1000000 ≤ U)%Z → (10000 ≤ I)%Z → 0 <= mrp <= 99.8 → 0.35 <= gof <= 0.6 →
  init U I mrp gof di cp ef = Ok (mkCalculator U I mrp gof di cp ef ∅ ∅ 0 0 0 0 ∅).
Proof.
  intros HU HI Hm Hg. unfold init.
  repeat case_decide; try lia; try tauto; done.
Qed.

Lemma init_inv U I mrp gof di cp ef c :
  init U I mrp gof di cp ef = Ok c →
  c = mkCalculator U I mrp gof di cp ef ∅ ∅ 0 0 0 0 ∅
  ∧ (1000000 ≤ U)%Z ∧ (10000 ≤ I)%Z ∧ 0 <= mrp <= 99.8 ∧ 0.35 <= gof <= 0.6.
Proof.
  unfold init. repeat case_decide; intros Hc; try discriminate.
  injection Hc as <-.
  destruct (decide (0 <= mrp ∧ mrp <= 99.8)); [|tauto].
  destruct (decide (0.35 <= gof ∧ gof <= 0.6)); [|tauto].
  repeat split; try lia; tauto.
Qed.

(** C4. The constructor raises (a [ValueError] carrying a message, and
    no object) exactly when [total_universe < 1,000,000], or
    [total_impressions < 10,000], or [max_reach_percent] is outside
    [[0, 99.8]], or [global_overlap_factor] is outside [[0.35, 0.6]];
    otherwise it returns the object with the seven inputs stored and
    every computed attribute still empty or zero.  With the other three
    inputs in range, a universe of 1,000,000 and an overlap factor of
    0.6 are accepted, while 999,999 and 0.61 raise. *)
Theorem C4_init_raises_iff_out_of_bounds :
  (∀ U I mrp gof di cp ef,
     (∃ e, init U I mrp gof di cp ef = Raise e)
     ↔ ((U < 1000000)%Z ∨ (I < 10000)%Z
        ∨ ¬ (0 <= mrp <= 99.8) ∨ ¬ (0.35 <= gof <= 0.6)))
  ∧ (∀ U I mrp gof di cp ef e,
       init U I mrp gof di cp ef = Raise e → ∃ msg, e = ValueError msg)
  ∧ (∀ U I mrp gof di cp ef c,
       init U I mrp gof di cp ef = Ok c →
       c = mkCalculator U I mrp gof di cp ef ∅ ∅ 0 0 0 0 ∅)
  ∧ (∀ I mrp gof di cp ef,
       (10000 ≤ I)%Z → 0 <= mrp <= 99.8 → 0.35 <= gof <= 0.6 →
       (∃ c, init 1000000 I mrp gof di cp ef = Ok c)
       ∧ (∃ e, init 999999 I mrp gof di cp ef = Raise e))
  ∧ (∀ U I mrp di cp ef,
       (1000000 ≤ U)%Z → (10000 ≤ I)%Z → 0 <= mrp <= 99.8 →
       (∃ c, init U I mrp 0.6 di cp ef = Ok c)
       ∧ (∃ e, init U I mrp 0.61 di cp ef = Raise e)).
Proof.
  assert (Hiff : ∀ U I mrp gof di cp ef,
     (∃ e, init U I mrp gof di cp ef = Raise e)
     ↔ ((U < 1000000)%Z ∨ (I < 10000)%Z
        ∨ ¬ (0 <= mrp <= 99.8) ∨ ¬ (0.35 <= gof <= 0.6))).
  { intros U I mrp gof di cp ef. split.
    - intros [e He].
      destruct (decide (U < 1000000)%Z); [tauto|].
      destruct (decide (I < 10000)%Z); [tauto|].
      destruct (decide (0 <= mrp ∧ mrp <= 99.8)); [|tauto].
      destruct (decide (0.35 <= gof ∧ gof <= 0.6)); [|tauto].
      rewrite init_Ok in He by (lia || tauto). discriminate.
    - intros H. unfold init. repeat case_decide; eauto. tauto. }
  split; [exact Hiff|].
  split.
  { intros U I mrp gof di cp ef e. unfold init.
    repeat case_decide; intros Hc; inversion Hc; eauto. }
  split.
  { intros U I mrp gof di cp ef c H. by apply init_inv in H as [-> _]. }
  split.
  - intros I mrp gof di cp ef HI Hm Hg. split.
    + eexists. apply init_Ok; [lia|done..].
    + apply Hiff. left. lia.
  - intros U I mrp di cp ef HU HI Hm. split.
    + eexists. apply init_Ok; [done..|lra].
    + apply Hiff. right. right. right. lra.
Qed.

(** The boundary cases of C4 on a plan without channels. *)
Lemma C4_witness :
  (∃ c, init 1000000 10000 90 0.5 ∅ ∅ ∅ = Ok c)
  ∧ (∃ e, init 999999 10000 90 0.5 ∅ ∅ ∅ = Raise e)
  ∧ (∃ c, init 1000000 10000 90 0.6 ∅ ∅ ∅ = Ok c)
  ∧ (∃ e, init 1000000 10000 90 0.61 ∅ ∅ ∅ = Raise e).
Proof.
  destruct C4_init_raises_iff_out_of_bounds as (_ & _ & _ & HU & Hg).
  destruct (HU 10000%Z 90 0.5 ∅ ∅ ∅) as [H1 H2]; [lia|lra|lra|].
  destruct (Hg 1000000%Z 10000%Z 90 ∅ ∅ ∅) as [H3 H4]; [lia|lia|lra|].
  auto.
Defined.

(** ** Python primitives: basic facts *)

Lemma pydiv_Ok a b : b ≠ 0 → pydiv a b = Ok (a / b).
Proof. intros Hb. unfold pydiv. by case_decide. Qed.

Lemma pydiv_zero a : pydiv a 0 = Raise ZeroDivisionError.
Proof. unfold pydiv. by case_decide. Qed.

Lemma pydiv_inv a b q : pydiv a b = Ok q → b ≠ 0 ∧ q = a / b.
Proof. unfold pydiv. case_decide; [done|]. intros [= <-]. done. Qed.

Lemma pymax_Rmax a b : pymax a b = Rmax a b.
Proof. unfold pymax, Rmax. case_decide; destruct (Rle_dec a b); lra. Qed.

Lemma pymin_Rmin a b : pymin a b = Rmin a b.
Proof. unfold pymin, Rmin. case_decide; destruct (Rle_dec a b); lra. Qed.

Lemma pymax_bounds a b : a <= pymax a b ∧ b <= pymax a b.
Proof. unfold pymax. case_decide; lra. Qed.

Lemma pymin_bounds a b : pymin a b <= a ∧ pymin a b <= b.
Proof. unfold pymin. case_decide; lra. Qed.

Lemma pymin_lower a b l : l <= a → l <= b → l <= pymin a b.
Proof. unfold pymin. case_decide; lra. Qed.

Lemma pysum_empty : pysum ∅ = 0.
Proof. unfold pysum. by rewrite map_fold_empty. Qed.

Lemma pysum_insert (m : gmap string R) k v :
  m !! k = None → pysum (<[k:=v]> m) = pysum m + v.
Proof.
  intros Hk. unfold pysum.
  rewrite map_fold_insert_L; [done| |done].
  intros. lra.
Qed.

Lemma pysum_singleton k v : pysum {[k := v]} = v.
Proof.
  rewrite <- insert_empty, pysum_insert by apply lookup_empty.
  rewrite pysum_empty. lra.
Qed.

Lemma pysum_nonneg (m : gmap string R) :
  map_Forall (λ _ v, 0 <= v) m → 0 <= pysum m.
Proof.
  induction m as [|k v m Hk IH] using map_ind.
  - intros _. rewrite pysum_empty. lra.
  - intros H. apply map_Forall_insert in H as [Hv Hm]; [|done].
    rewrite pysum_insert by done. specialize (IH Hm). lra.
Qed.

Lemma pysum_lookup_le (m : gmap string R) k v :
  map_Forall (λ _ v, 0 <= v) m → m !! k = Some v → v <= pysum m.
Proof.
  induction m as [|j w m Hj IH] using map_ind.
  - intros _ H. by rewrite lookup_empty in H.
  - intros H Hl. apply map_Forall_insert in H as [Hw Hm]; [|done].
    rewrite pysum_insert by done.
    pose proof (pysum_nonneg m Hm).
    destruct (decide (j = k)) as [->|Hne].
    + rewrite lookup_insert_eq in Hl. injection Hl as <-. lra.
    + rewrite lookup_insert_ne in Hl by done. specialize (IH Hm Hl). lra.
Qed.

Lemma pysum_zero_inv (m : gmap string R) :
  map_Forall (λ _ v, 0 <= v) m → pysum m = 0 → map_Forall (λ _ v, v = 0) m.
Proof.
  intros Hm H0 k v Hk.
  pose proof (pysum_lookup_le m k v Hm Hk). specialize (Hm k v Hk). simpl in Hm. lra.
Qed.

Lemma pysum_scale (m : gmap string R) t :
  pysum ((λ r, r / t * 100) <$> m) = pysum m / t * 100.
Proof.
  induction m as [|k v m Hk IH] using map_ind.
  - rewrite fmap_empty, pysum_empty. lra.
  - rewrite fmap_insert, !pysum_insert, IH; [lra|done|].
    by rewrite lookup_fmap, Hk.
Qed.

Lemma pysum_all_zero (m : gmap string R) :
  map_Forall (λ _ v, v = 0) m → pysum m = 0.
Proof.
  induction m as [|k v m Hk IH] using map_ind.
  - intros _. apply pysum_empty.
  - intros H. apply map_Forall_insert in H as [Hv Hm]; [|done].
    rewrite pysum_insert, IH by done. lra.
Qed.

(** ** Channel Reach Stage: the first loop *)

Lemma channel_value_nonneg c pen imp : 0 <= channel_value c pen imp.
Proof.
  unfold channel_value. case_decide; [|lra]. apply pymax_bounds.
Qed.

Lemma channel_reach_step_Ok c ch imp cr tot :
  channel_reach_step c ch imp (Ok (cr, tot)) =
    match channel_penetration c !! ch with
    | Some pen =>
        if decide (0 < imp)%Z then
          if decide (pen * IZR (total_universe c) = 0) then Raise ZeroDivisionError
          else Ok (<[ch := channel_value c pen imp]> cr, tot + channel_value c pen imp)
        else Ok (<[ch := channel_value c pen imp]> cr, tot)
    | None => Ok (cr, tot)
    end.
Proof.
  unfold channel_reach_step, channel_value, pydiv. simpl.
  destruct (channel_penetration c !! ch) as [pen|]; [|done].
  repeat case_decide; done.
Qed.

Lemma channel_reach_step_Raise c ch imp e :
  channel_reach_step c ch imp (Raise e) = Raise e.
Proof. done. Qed.

Section first_loop.
Variable c : Calculator.

Lemma first_loop_inv (m : gmap string Z) cr tot :
  first_loop c m = Ok (cr, tot) →
  tot = pysum cr
  ∧ (∀ ch, cr !! ch =
           imp ← m !! ch; pen ← channel_penetration c !! ch;
           Some (channel_value c pen imp))
  ∧ (∀ ch imp pen, m !! ch = Some imp → channel_penetration c !! ch = Some pen →
                   (0 < imp)%Z → pen * IZR (total_universe c) ≠ 0).
Proof.
  revert cr tot. induction m as [|i x m Hi Hfirst IH] using map_first_key_ind;
    intros cr tot.
  - unfold first_loop. rewrite map_fold_empty. intros [= <- <-].
    split; [by rewrite pysum_empty|]. split.
    + intros ch. by rewrite !lookup_empty.
    + intros ch imp pen H. by rewrite lookup_empty in H.
  - unfold first_loop. rewrite map_fold_insert_first_key by done.
    fold (first_loop c m). destruct (first_loop c m) as [[cr1 t1]|e]; [|done].
    destruct (IH cr1 t1 eq_refl) as (Ht1 & Hcr1 & Hnz1).
    assert (Hfresh : cr1 !! i = None) by (by rewrite Hcr1, Hi).
    rewrite channel_reach_step_Ok.
    destruct (channel_penetration c !! i) as [pen|] eqn:Hpen.
    + assert (Hins : ∀ ch, <[i:=channel_value c pen x]> cr1 !! ch =
                 imp ← <[i:=x]> m !! ch; pen ← channel_penetration c !! ch;
                 Some (channel_value c pen imp)).
      { intros ch. destruct (decide (i = ch)) as [<-|Hne].
        - rewrite !lookup_insert_eq. simpl. by rewrite Hpen.
        - rewrite !lookup_insert_ne by done. apply Hcr1. }
      assert (Hnz : (0 < x)%Z → pen * IZR (total_universe c) ≠ 0 →
                 ∀ ch imp pen', <[i:=x]> m !! ch = Some imp →
                   channel_penetration c !! ch = Some pen' →
                   (0 < imp)%Z → pen' * IZR (total_universe c) ≠ 0).
      { intros Hx Hp ch imp pen' Hm Hc Himp.
        destruct (decide (i = ch)) as [<-|Hne].
        - rewrite Hpen in Hc. by injection Hc as <-.
        - rewrite lookup_insert_ne in Hm by done. eauto. }
      repeat case_decide; [done| |].
      * intros [= <- <-]. split; [|split; [done|by apply Hnz]].
        rewrite pysum_insert by done. by rewrite Ht1.
      * intros [= <- <-]. split; [|split; [done|]].
        -- rewrite pysum_insert by done.
           unfold channel_value. rewrite decide_False by done. lra.
        -- intros ch imp pen' Hm Hc Himp.
           destruct (decide (i = ch)) as [<-|Hne].
           ++ rewrite lookup_insert_eq in Hm. injection Hm as <-. done.
           ++ rewrite lookup_insert_ne in Hm by done. eauto.
    + intros [= <- <-]. split; [done|]. split.
      * intros ch. destruct (decide (i = ch)) as [<-|Hne].
        -- rewrite lookup_insert_eq. simpl. by rewrite Hpen.
        -- rewrite lookup_insert_ne by done. apply Hcr1.
      * intros ch imp pen' Hm Hc Himp.
        destruct (decide (i = ch)) as [<-|Hne].
        -- by rewrite Hpen in Hc.
        -- rewrite lookup_insert_ne in Hm by done. eauto.
Qed.

Lemma first_loop_total (m : gmap string Z) :
  (∀ ch imp pen, m !! ch = Some imp → channel_penetration c !! ch = Some pen →
                 (0 < imp)%Z → pen * IZR (total_universe c) ≠ 0) →
  ∃ cr tot, first_loop c m = Ok (cr, tot).
Proof.
  induction m as [|i x m Hi Hfirst IH] using map_first_key_ind; intros Hnz.
  - unfold first_loop. rewrite map_fold_empty. eauto.
  - unfold first_loop. rewrite map_fold_insert_first_key by done. fold (first_loop c m).
    destruct IH as (cr1 & t1 & ->).
    { intros ch imp pen Hm. apply Hnz. rewrite lookup_insert_ne; [done|].
      intros <-. by rewrite Hi in Hm. }
    rewrite channel_reach_step_Ok.
    destruct (channel_penetration c !! i) as [pen|] eqn:Hpen; [|eauto].
    repeat case_decide; eauto.
    exfalso. eapply (Hnz i x pen); [by rewrite lookup_insert_eq|done..].
Qed.

Lemma first_loop_raises (m : gmap string Z) e :
  first_loop c m = Raise e → e = ZeroDivisionError.
Proof.
  revert e. induction m as [|i x m Hi Hfirst IH] using map_first_key_ind; intros e.
  - unfold first_loop. by rewrite map_fold_empty.
  - unfold first_loop. rewrite map_fold_insert_first_key by done. fold (first_loop c m).
    destruct (first_loop c m) as [[cr1 t1]|e1].
    + rewrite channel_reach_step_Ok.
      destruct (channel_penetration c !! i); [|done].
      repeat case_decide; [|done..]. by intros [= <-].
    + simpl. intros [= <-]. by apply IH.
Qed.
End first_loop.

(** ** Channel Reach Stage: the contribution loop *)

Lemma contribution_fold_positive (tot : R) (m : gmap string R) :
  tot ≠ 0 →
  map_fold (contribution_step tot) (Ok ∅) m = Ok ((λ r, r / tot * 100) <$> m).
Proof.
  intros Htot. induction m as [|i x m Hi Hfirst IH] using map_first_key_ind.
  - by rewrite map_fold_empty, fmap_empty.
  - rewrite map_fold_insert_first_key, IH by done.
    unfold contribution_step. simpl. rewrite pydiv_Ok by done. simpl.
    by rewrite fmap_insert.
Qed.

Lemma contribution_fold_zero (m : gmap string R) :
  map_fold (λ channel (_ : R) contributions, <[channel := 0]> contributions) ∅ m
  = (λ _, 0) <$> m.
Proof.
  induction m as [|i x m Hi Hfirst IH] using map_first_key_ind.
  - by rewrite map_fold_empty, fmap_empty.
  - rewrite map_fold_insert_first_key, IH by done. by rewrite fmap_insert.
Qed.

Lemma contributions_loop_fresh c cr tot :
  channel_contributions c = ∅ →
  contributions_loop c cr tot =
    Ok (if decide (0 < tot) then (λ r, r / tot * 100) <$> cr else (λ _, 0) <$> cr).
Proof.
  intros Hc. unfold contributions_loop. rewrite Hc. case_decide.
  - apply contribution_fold_positive. lra.
  - by rewrite contribution_fold_zero.
Qed.

(** On a fresh object the stage is the first loop followed by a
    contribution loop that cannot fail. *)
Lemma calculate_channel_reach_fresh c :
  channel_contributions c = ∅ →
  calculate_channel_reach c =
    '(cr, tot) ← channel_reach_loop c;
    let cc := if decide (0 < tot) then (λ r, r / tot * 100) <$> cr
              else (λ _, 0) <$> cr in
    Ok ((cr, cc), set_channel_contributions cc (set_channel_reach cr c)).
Proof.
  intros Hc. unfold calculate_channel_reach.
  destruct (channel_reach_loop c) as [[cr tot]|e]; [|done]. simpl.
  by rewrite contributions_loop_fresh.
Qed.

Lemma channel_reach_loop_inv c cr tot :
  channel_reach c = ∅ →
  channel_reach_loop c = Ok (cr, tot) →
  tot = pysum cr
  ∧ (∀ ch, cr !! ch =
           imp ← distributed_impressions c !! ch;
           pen ← channel_penetration c !! ch;
           Some (channel_value c pen imp))
  ∧ addressable c.
Proof.
  intros He. unfold channel_reach_loop. rewrite He. apply first_loop_inv.
Qed.

Lemma channel_reach_loop_total c :
  channel_reach c = ∅ → addressable c →
  ∃ cr tot, channel_reach_loop c = Ok (cr, tot).
Proof.
  intros He Ha. unfold channel_reach_loop. rewrite He.
  by apply first_loop_total.
Qed.

Lemma channel_reach_loop_raises c e :
  channel_reach c = ∅ →
  channel_reach_loop c = Raise e → e = ZeroDivisionError.
Proof.
  intros He. unfold channel_reach_loop. rewrite He. apply first_loop_raises.
Qed.

Lemma channel_reach_nonneg c cr tot :
  channel_reach c = ∅ →
  channel_reach_loop c = Ok (cr, tot) →
  map_Forall (λ _ v, 0 <= v) cr.
Proof.
  intros He Hl. destruct (channel_reach_loop_inv c cr tot He Hl) as (_ & Hlk & _).
  intros ch v Hv. rewrite Hlk in Hv.
  destruct (distributed_impressions c !! ch) as [imp|]; [|done]. simpl in Hv.
  destruct (channel_penetration c !! ch) as [pen|]; [|done]. simpl in Hv.
  injection Hv as <-. apply channel_value_nonneg.
Qed.

Lemma channel_value_saturating c pen imp :
  0 < pen * IZR (total_universe c) → (0 < imp)%Z →
  channel_value c pen imp
  = pen * IZR (total_universe c)
    * (1 - exp (- IZR imp / (pen * IZR (total_universe c))))
  ∧ 0 < channel_value c pen imp < pen * IZR (total_universe c).
Proof.
  intros Hm Hi. unfold channel_value. rewrite decide_True by done.
  set (mpr := pen * IZR (total_universe c)) in *.
  assert (Himp : 0 < IZR imp) by (by apply IZR_lt).
  assert (Hq : - IZR imp / mpr < 0).
  { unfold Rdiv. apply Ropp_lt_cancel. rewrite Ropp_0, <- Ropp_mult_distr_l, Ropp_involutive.
    apply Rmult_lt_0_compat; [done|]. by apply Rinv_0_lt_compat. }
  pose proof (exp_pos (- IZR imp / mpr)) as Hpos.
  pose proof (exp_increasing _ _ Hq) as Hlt. rewrite exp_0 in Hlt.
  set (e := exp (- IZR imp / mpr)) in *.
  assert (H1 : 0 < mpr * (1 - e)) by (apply Rmult_lt_0_compat; lra).
  assert (H2 : mpr * (1 - e) < mpr) by nra.
  unfold pymax, pymin. repeat case_decide; lra.
Qed.


(** ** Total Reach Stage *)

Lemma efficiency_fold_bounds (ef m : gmap string R) :
  map_Forall (λ _ e, 0 <= e <= 1) ef →
  map_Forall (λ _ v, 0 <= v) m →
  0 <= map_fold (λ channel reach acc, acc + default 0.5 (ef !! channel) * reach) 0 m
    <= pysum m.
Proof.
  intros Hef. induction m as [|k v m Hk IH] using map_ind.
  - intros _. rewrite map_fold_empty, pysum_empty. lra.
  - intros H. apply map_Forall_insert in H as [Hv Hm]; [|done].
    rewrite pysum_insert by done.
    rewrite map_fold_insert_L; [|intros; lra|done].
    specialize (IH Hm).
    assert (He : 0 <= default 0.5 (ef !! k) <= 1).
    { destruct (ef !! k) as [e|] eqn:E; simpl; [|lra]. exact (Hef k e E). }
    nra.
Qed.

Lemma efficiency_sum_bounds c :
  map_Forall (λ _ e, 0 <= e <= 1) (efficiency_factors c) →
  map_Forall (λ _ v, 0 <= v) (channel_reach c) →
  0 <= efficiency_sum c <= pysum (channel_reach c).
Proof. apply efficiency_fold_bounds. Qed.

(** The stage always returns; it writes [raw_total_reach] and
    [final_reach] and nothing else. *)
Lemma calculate_total_reach_Ok c :
  ∃ fr, calculate_total_reach c
        = Ok (fr, set_final_reach fr (set_raw_total_reach (pysum (channel_reach c)) c)).
Proof.
  unfold calculate_total_reach. case_decide as He.
  - exists 0. by rewrite He, pysum_empty.
  - case_decide as Hw; simpl.
    + rewrite pydiv_Ok by lra. simpl. eauto.
    + eauto.
Qed.

Lemma calculate_total_reach_cap c fr c' :
  calculate_total_reach c = Ok (fr, c') →
  0 <= max_reach_percent c → (0 <= total_universe c)%Z →
  0 <= fr <= max_reach_percent c / 100 * IZR (total_universe c).
Proof.
  intros H Hm HU. apply IZR_le in HU.
  assert (Hcap : 0 <= max_reach_percent c / 100 * IZR (total_universe c)) by nra.
  revert H. unfold calculate_total_reach. case_decide as He.
  - intros [= <- _]. lra.
  - destruct (if decide (0 < pysum (channel_reach c)) then _ else _) as [we|e];
      simpl; [|done].
    intros [= <- _]. split.
    + apply pymin_lower; [apply pymax_bounds|done].
    + apply pymin_bounds.
Qed.

Lemma calculate_total_reach_discount c fr c' :
  calculate_total_reach c = Ok (fr, c') →
  map_Forall (λ _ e, 0 <= e <= 1) (efficiency_factors c) →
  map_Forall (λ _ v, 0 <= v) (channel_reach c) →
  global_overlap_factor c <= 1 →
  fr <= (1 - global_overlap_factor c) * pysum (channel_reach c).
Proof.
  intros H Hef Hnn Hg.
  pose proof (pysum_nonneg _ Hnn) as Hsum.
  pose proof (efficiency_sum_bounds c Hef Hnn) as Heff.
  revert H. unfold calculate_total_reach. case_decide as He.
  - intros [= <- _]. nra.
  - case_decide as Hw; simpl.
    + rewrite pydiv_Ok by lra. simpl. intros [= <- _].
      set (raw := pysum (channel_reach c)) in *.
      assert (Hwe : 0 <= efficiency_sum c / raw <= 1).
      { split.
        - apply Rmult_le_pos; [lra|]. apply Rlt_le. by apply Rinv_0_lt_compat.
        - apply Rmult_le_reg_r with raw; [done|].
          unfold Rdiv. rewrite Rmult_assoc, Rinv_l by lra. lra. }
      set (we := efficiency_sum c / raw) in *.
      assert (Hov : 0 <= raw * (1 - global_overlap_factor c)) by nra.
      assert (Hrae : 0 <= raw * (1 - global_overlap_factor c) * we
                     <= (1 - global_overlap_factor c) * raw).
      { split; [apply Rmult_le_pos; lra|].
        rewrite (Rmult_comm (1 - global_overlap_factor c) raw).
        rewrite <- (Rmult_1_r (raw * (1 - global_overlap_factor c))) at 2.
        apply Rmult_le_compat_l; lra. }
      pose proof (pymin_bounds
        (pymax 0 (raw * (1 - global_overlap_factor c) * we))
        (max_reach_percent c / 100 * IZR (total_universe c))) as [Hb _].
      unfold pymax in *. case_decide; lra.
    + intros [= <- _].
      assert (pysum (channel_reach c) = 0) as -> by lra.
      pose proof (pymin_bounds
        (pymax 0 (0 * (1 - global_overlap_factor c) * 0.5))
        (max_reach_percent c / 100 * IZR (total_universe c))) as [Hb _].
      unfold pymax in *. case_decide; lra.
Qed.

(** C10. For an accepted plan whose efficiency factors all lie in
    [[0, 1]], after the Channel Reach Stage the Total Reach Stage returns
    with [final_reach <= (1 - global_overlap_factor) * raw_total_reach],
    hence [final_reach <= 0.65 * raw_total_reach] and
    [final_reach <= raw_total_reach]. *)
Theorem C10_final_reach_discounted U I mrp gof di cp ef c ret c1 :
  init U I mrp gof di cp ef = Ok c →
  map_Forall (λ _ e, 0 <= e <= 1) ef →
  calculate_channel_reach c = Ok (ret, c1) →
  ∃ c2,
    calculate_total_reach c1 = Ok (final_reach c2, c2)
    ∧ 0 <= raw_total_reach c2
    ∧ final_reach c2 <= (1 - gof) * raw_total_reach c2
    ∧ final_reach c2 <= 0.65 * raw_total_reach c2
    ∧ final_reach c2 <= raw_total_reach c2.
Proof.
  intros Hinit Hef Hstage. apply init_inv in Hinit as (-> & _ & _ & _ & Hg).
  set (c := mkCalculator _ _ _ _ _ _ _ _ _ _ _ _ _ _) in *.
  rewrite calculate_channel_reach_fresh in Hstage by done.
  destruct (channel_reach_loop c) as [[cr tot]|e] eqn:Hloop; [|done].
  simpl in Hstage. injection Hstage as _ <-.
  pose proof (channel_reach_nonneg c cr tot eq_refl Hloop) as Hnn.
  set (c1 := set_channel_contributions _ _).
  destruct (calculate_total_reach_Ok c1) as [fr Hfr].
  pose proof (calculate_total_reach_discount c1 fr _ Hfr Hef Hnn) as Hd.
  pose proof (pysum_nonneg cr Hnn) as Hsum.
  simpl in Hd. specialize (Hd ltac:(lra)).
  exists (set_final_reach fr (set_raw_total_reach (pysum (channel_reach c1)) c1)).
  split; [exact Hfr|]. simpl.
  assert ((1 - gof) * pysum cr <= 0.65 * pysum cr)
    by (apply Rmult_le_compat_r; lra).
  repeat split; lra.
Qed.

(** ** Frequency Stage *)

Lemma calculate_frequency_Ok c :
  calculate_frequency c =
    let frequency :=
      if decide (final_reach c <= 0) then 0
      else pymin (pymax 1 (IZR (total_impressions c) / final_reach c)) 20 in
    Ok (frequency, set_average_frequency frequency c).
Proof.
  unfold calculate_frequency. case_decide; [done|].
  rewrite pydiv_Ok by lra. done.
Qed.



(** ** Effective Reach Stage *)

Lemma append_plus_inj (s1 s2 : string) : s1 +:+ "+" = s2 +:+ "+" → s1 = s2.
Proof.
  revert s2. induction s1 as [|a s1 IH]; intros [|b s2]; simpl; intros H.
  - done.
  - injection H as _ H. destruct s2; discriminate.
  - injection H as _ H. destruct s1; discriminate.
  - injection H as -> H. f_equal. by apply IH.
Qed.

Lemma threshold_key_inj i j : threshold_key i = threshold_key j → i = j.
Proof.
  unfold threshold_key. intros H. apply append_plus_inj in H.
  by apply (inj pretty) in H.
Qed.

Lemma ladder_fold c x (n : nat) (lo : Z) er0 cur0 :
  let st := foldl (effective_reach_step c x) (er0, cur0) (seqZ lo (Z.of_nat n)) in
  st.2 = cur0 * (1 - x) ^ n
  ∧ (∀ k, (lo ≤ k < lo + Z.of_nat n)%Z →
          st.1 !! threshold_key k
          = Some (pymin (pymax 0 (cur0 * (1 - x) ^ Z.to_nat (k - lo + 1)))
                    (max_reach_percent c)))
  ∧ (∀ s, (∀ k, (lo ≤ k < lo + Z.of_nat n)%Z → s ≠ threshold_key k) →
          st.1 !! s = er0 !! s).
Proof.
  induction n as [|n IH].
  - simpl. split; [lra|]. split; [intros k Hk; lia|done].
  - rewrite seqZ_S, foldl_app. cbv zeta in *.
    destruct (foldl (effective_reach_step c x) (er0, cur0) (seqZ lo (Z.of_nat n)))
      as [er cur]. simpl in *. destruct IH as (Hcur & Hin & Hout).
    split; [rewrite Hcur; lra|]. split.
    + intros k Hk. destruct (decide (k = lo + Z.of_nat n)%Z) as [->|Hne].
      * rewrite lookup_insert_eq. do 3 f_equal. rewrite Hcur.
        replace (Z.to_nat (lo + Z.of_nat n - lo + 1)) with (S n) by lia.
        simpl. lra.
      * rewrite lookup_insert_ne.
        -- apply Hin. lia.
        -- intros Heq. apply threshold_key_inj in Heq. lia.
    + intros s Hs. rewrite lookup_insert_ne.
      * apply Hout. intros k Hk. apply Hs. lia.
      * intros Heq. apply (Hs (lo + Z.of_nat n)%Z); [lia|done].
Qed.

(** The stage on a state with positive reach and frequency. *)
Lemma calculate_effective_reach_positive c max_frequency :
  total_universe c ≠ 0%Z → 0 < final_reach c → 0 < average_frequency c →
  ∃ ladder,
    calculate_effective_reach c max_frequency
      = Ok (ladder, set_effective_reach ladder c)
    ∧ ∀ k, (2 ≤ k ≤ max_frequency)%Z →
        ladder !! threshold_key k
        = Some (pymin
                  (pymax 0 (final_reach c / IZR (total_universe c) * 100
                            * (1 - 1 / pymax 1 (average_frequency c))
                              ^ Z.to_nat (k - 1)))
                  (max_reach_percent c)).
Proof.
  intros HU Hf Ha. unfold calculate_effective_reach.
  rewrite decide_False by lra.
  rewrite (pydiv_Ok (final_reach c)) by (intros H; by apply eq_IZR_R0 in H). simpl.
  rewrite pydiv_Ok by (pose proof (pymax_bounds 1 (average_frequency c)); lra).
  simpl. eexists. split; [done|].
  intros k Hk. unfold range.
  destruct (ladder_fold c (1 / pymax 1 (average_frequency c))
              (Z.to_nat (max_frequency + 1 - 2)) 2 ∅
              (final_reach c / IZR (total_universe c) * 100)) as (_ & Hin & _).
  rewrite Z2Nat.id in Hin by lia.
  rewrite Hin by lia. do 5 f_equal. lia.
Qed.

Lemma decay_rate_bounds af : 0 < 1 / pymax 1 af <= 1.
Proof.
  pose proof (pymax_bounds 1 af) as [H1 _].
  split.
  - apply Rdiv_lt_0_compat; lra.
  - apply Rmult_le_reg_r with (pymax 1 af); [lra|].
    unfold Rdiv. rewrite Rmult_assoc, Rinv_l by lra. lra.
Qed.

Lemma pow_unit_interval r (n : nat) : 0 <= r <= 1 → 0 <= r ^ n <= 1.
Proof.
  intros Hr. split; [apply pow_le; lra|].
  rewrite <- (pow1 n). apply pow_incr. lra.
Qed.

Lemma clamp_python v hi : pymin (pymax 0 v) hi = clamp v 0 hi.
Proof. unfold clamp. by rewrite pymin_Rmin, pymax_Rmax. Qed.

Lemma clamp_mono a b hi : a <= b → clamp a 0 hi <= clamp b 0 hi.
Proof.
  intros H. unfold clamp, Rmin, Rmax. repeat destruct (Rle_dec _ _); lra.
Qed.

Lemma clamp_inactive v hi : 0 <= v <= hi → clamp v 0 hi = v.
Proof.
  intros H. unfold clamp, Rmin, Rmax. repeat destruct (Rle_dec _ _); lra.
Qed.

Lemma clamp_range v hi : 0 <= hi → 0 <= clamp v 0 hi <= hi.
Proof.
  intros H. unfold clamp, Rmin, Rmax. repeat destruct (Rle_dec _ _); lra.
Qed.

(** C7. On a state with a positive universe, positive [final_reach] and
    positive [average_frequency], the Effective Reach Stage returns and
    stores a ladder in which, for every two successive thresholds [k+]
    and [(k+1)+] between 2 and [max_frequency], the value at [(k+1)+] is
    at most the value at [k+]. *)
Theorem C7_ladder_non_increasing c max_frequency :
  (0 < total_universe c)%Z → 0 < final_reach c → 0 < average_frequency c →
  ∃ c',
    calculate_effective_reach c max_frequency = Ok (effective_reach c', c')
    ∧ ∀ k, (2 ≤ k < max_frequency)%Z →
        ∃ v w,
          effective_reach c' !! threshold_key k = Some v
          ∧ effective_reach c' !! threshold_key (k + 1) = Some w
          ∧ w <= v.
Proof.
  intros HU Hf Ha.
  destruct (calculate_effective_reach_positive c max_frequency) as (ladder & Hrun & Hlk);
    [lia|done..|].
  exists (set_effective_reach ladder c). split; [exact Hrun|]. simpl.
  intros k Hk. eexists _, _.
  split; [apply Hlk; lia|]. split; [apply Hlk; lia|].
  rewrite !clamp_python. apply clamp_mono.
  replace (Z.to_nat (k + 1 - 1)) with (S (Z.to_nat (k - 1))) by lia.
  pose proof (decay_rate_bounds (average_frequency c)) as Hx.
  set (x := 1 / pymax 1 (average_frequency c)) in *.
  assert (Hrp : 0 < final_reach c / IZR (total_universe c) * 100).
  { apply Rmult_lt_0_compat; [|lra].
    apply Rdiv_lt_0_compat; [done|]. by apply (IZR_lt 0). }
  set (rp := final_reach c / IZR (total_universe c) * 100) in *.
  pose proof (pow_unit_interval (1 - x) (Z.to_nat (k - 1)) ltac:(lra)) as Hp.
  simpl. set (p := (1 - x) ^ Z.to_nat (k - 1)) in *.
  assert (Hrpp : 0 <= rp * p) by (apply Rmult_le_pos; lra).
  assert (Hdrop : 0 <= rp * p * x) by (apply Rmult_le_pos; lra).
  lra.
Qed.

(** C7 on a state with a reach of 500,000 and an average frequency of 2. *)
Lemma C7_witness :
  ∃ c',
    calculate_effective_reach (reached_state 500000 2) 6 = Ok (effective_reach c', c')
    ∧ ∃ v w,
        effective_reach c' !! threshold_key 2 = Some v
        ∧ effective_reach c' !! threshold_key 3 = Some w
        ∧ w <= v.
Proof.
  destruct (C7_ladder_non_increasing (reached_state 500000 2) 6) as (c' & H & Hk).
  - simpl. lia.
  - simpl. lra.
  - simpl. lra.
  - exists c'. split; [exact H|]. apply (Hk 2%Z). lia.
Defined.

(** ** The stages in sequence *)

Lemma construct_Ok plan :
  valid_plan plan →
  construct plan
  = Ok (mkCalculator (total_universe plan) (total_impressions plan)
          (max_reach_percent plan) (global_overlap_factor plan)
          (distributed_impressions plan) (channel_penetration plan)
          (efficiency_factors plan) ∅ ∅ 0 0 0 0 ∅).
Proof.
  intros (HU & HI & Hm & Hg & _). by apply init_Ok.
Qed.

Lemma stage1_fresh_inv c ret c1 :
  channel_reach c = ∅ → channel_contributions c = ∅ →
  calculate_channel_reach c = Ok (ret, c1) →
  ∃ cr tot,
    channel_reach_loop c = Ok (cr, tot)
    ∧ tot = pysum cr
    ∧ map_Forall (λ _ v, 0 <= v) cr
    ∧ ret = (cr, channel_contributions c1)
    ∧ c1 = set_channel_contributions
             (if decide (0 < tot) then (λ r, r / tot * 100) <$> cr
              else (λ _, 0) <$> cr)
             (set_channel_reach cr c).
Proof.
  intros He Hc H. rewrite calculate_channel_reach_fresh in H by done.
  destruct (channel_reach_loop c) as [[cr tot]|e] eqn:Hloop; [|done].
  simpl in H. injection H as <- <-.
  exists cr, tot. split; [done|].
  destruct (channel_reach_loop_inv c cr tot He Hloop) as (Htot & _ & _).
  split; [done|]. split; [by eapply channel_reach_nonneg|]. done.
Qed.

Lemma stage2_inv c ret c2 :
  calculate_total_reach c = Ok (ret, c2) →
  c2 = set_final_reach ret (set_raw_total_reach (pysum (channel_reach c)) c).
Proof.
  intros H. destruct (calculate_total_reach_Ok c) as [fr Hfr].
  rewrite Hfr in H. by injection H as <- <-.
Qed.

Lemma stage3_inv c ret c3 :
  calculate_frequency c = Ok (ret, c3) →
  c3 = set_average_frequency ret c
  ∧ (0 < final_reach c → 1 <= ret <= 20).
Proof.
  rewrite calculate_frequency_Ok. cbv zeta. intros [= <- <-]. split; [done|].
  intros H. rewrite decide_False by lra.
  rewrite pymin_Rmin, pymax_Rmax. unfold Rmin, Rmax.
  repeat destruct (Rle_dec _ _); lra.
Qed.

(** What the first three stages establish on an accepted plan. *)
Lemma pipeline_inv U I mrp gof di cp ef c r1 c1 r2 c2 r3 c3 :
  init U I mrp gof di cp ef = Ok c →
  calculate_channel_reach c = Ok (r1, c1) →
  calculate_total_reach c1 = Ok (r2, c2) →
  calculate_frequency c2 = Ok (r3, c3) →
  total_universe c3 = U ∧ max_reach_percent c3 = mrp
  ∧ (1000000 ≤ U)%Z ∧ 0 <= mrp <= 99.8
  ∧ 0 <= final_reach c3 <= mrp / 100 * IZR U
  ∧ map_Forall (λ _ v, 0 <= v) (channel_reach c3)
  ∧ raw_total_reach c3 = pysum (channel_reach c3)
  ∧ overlapped_reach c3 = 0
  ∧ effective_reach c3 = ∅.
Proof.
  intros Hinit H1 H2 H3.
  apply init_inv in Hinit as (-> & HU & _ & Hm & _).
  apply stage1_fresh_inv in H1 as (cr & tot & _ & _ & Hnn & _ & ->); [|done..].
  pose proof (calculate_total_reach_cap _ _ _ H2) as Hcap. simpl in Hcap.
  specialize (Hcap ltac:(lra) ltac:(lia)).
  apply stage2_inv in H2 as ->. apply stage3_inv in H3 as [-> _]. simpl.
  repeat split; try done; lra.
Qed.

Lemma percent_of_cap fr mrp U :
  (0 < U)%Z → 0 <= fr <= mrp / 100 * IZR U →
  0 <= fr / IZR U * 100 <= mrp.
Proof.
  intros HU [H0 H1]. apply (IZR_lt 0) in HU.
  split.
  - apply Rmult_le_pos; [|lra]. apply Rmult_le_pos; [done|].
    apply Rlt_le. by apply Rinv_0_lt_compat.
  - apply Rmult_le_reg_r with (IZR U / 100); [lra|].
    replace (fr / IZR U * 100 * (IZR U / 100)) with fr by (field; lra). lra.
Qed.

(** C6. In a run on an accepted plan that reaches the Effective Reach
    Stage with [final_reach > 0] and [average_frequency > 0], with
    [reach_percent = final_reach / total_universe * 100] and
    [x = 1 / max(1.0, average_frequency)]: the stage returns and stores a
    ladder whose entry at every threshold [k+], [2 <= k <= max_frequency],
    is [clamp(reach_percent * (1 - x)^(k-1), 0, max_reach_percent)]; the
    clamp leaves that value unchanged, so the entry at [2+] is
    [reach_percent * (1 - x)] and every later entry is the prior entry
    times [(1 - x)]. *)
Theorem C6_effective_reach_geometric
    U I mrp gof di cp ef c r1 c1 r2 c2 r3 c3 max_frequency :
  init U I mrp gof di cp ef = Ok c →
  calculate_channel_reach c = Ok (r1, c1) →
  calculate_total_reach c1 = Ok (r2, c2) →
  calculate_frequency c2 = Ok (r3, c3) →
  0 < final_reach c3 → 0 < average_frequency c3 →
  let reach_percent := final_reach c3 / IZR (total_universe c3) * 100 in
  let x := 1 / Rmax 1 (average_frequency c3) in
  ∃ c4,
    calculate_effective_reach c3 max_frequency = Ok (effective_reach c4, c4)
    ∧ ∀ k, (2 ≤ k ≤ max_frequency)%Z →
        effective_reach c4 !! threshold_key k
        = Some (clamp (reach_percent * (1 - x) ^ Z.to_nat (k - 1))
                  0 (max_reach_percent c3))
        ∧ clamp (reach_percent * (1 - x) ^ Z.to_nat (k - 1))
            0 (max_reach_percent c3)
          = reach_percent * (1 - x) ^ Z.to_nat (k - 1)
        ∧ (k = 2%Z →
           effective_reach c4 !! threshold_key k = Some (reach_percent * (1 - x)))
        ∧ ((2 < k)%Z →
           ∃ prior,
             effective_reach c4 !! threshold_key (k - 1) = Some prior
             ∧ effective_reach c4 !! threshold_key k = Some (prior * (1 - x))).
Proof.
  intros Hinit H1 H2 H3 Hf Ha rp x.
  destruct (pipeline_inv _ _ _ _ _ _ _ _ _ _ _ _ _ _ Hinit H1 H2 H3)
    as (HU & Hmrp & HUmin & Hm & Hcap & _).
  destruct (calculate_effective_reach_positive c3 max_frequency)
    as (ladder & Hrun & Hlk); [rewrite HU; lia|done..|].
  exists (set_effective_reach ladder c3). split; [exact Hrun|]. simpl.
  assert (Hrp : 0 <= rp <= max_reach_percent c3).
  { subst rp. rewrite HU, Hmrp. apply percent_of_cap; [lia|done]. }
  assert (Hx : 0 < x <= 1).
  { subst x. rewrite <- pymax_Rmax. apply decay_rate_bounds. }
  assert (Hval : ∀ n : nat, 0 <= rp * (1 - x) ^ n <= max_reach_percent c3).
  { intros n. pose proof (pow_unit_interval (1 - x) n ltac:(lra)) as Hp.
    set (p := (1 - x) ^ n) in *. split; [apply Rmult_le_pos; lra|].
    apply Rle_trans with (rp * 1); [apply Rmult_le_compat_l; lra|lra]. }
  assert (Hkey : ∀ k, (2 ≤ k ≤ max_frequency)%Z →
            ladder !! threshold_key k = Some (rp * (1 - x) ^ Z.to_nat (k - 1))).
  { intros k Hk. rewrite Hlk by done. rewrite clamp_python, clamp_inactive.
    - subst rp x. by rewrite pymax_Rmax.
    - rewrite pymax_Rmax. apply Hval. }
  intros k Hk. split; [|split; [|split]].
  - rewrite Hkey by done. f_equal. symmetry. by apply clamp_inactive.
  - by apply clamp_inactive.
  - intros ->. rewrite Hkey by done. f_equal. simpl. lra.
  - intros Hk2. exists (rp * (1 - x) ^ Z.to_nat (k - 1 - 1)).
    split; [apply Hkey; lia|]. rewrite Hkey by done. f_equal.
    replace (Z.to_nat (k - 1)) with (S (Z.to_nat (k - 1 - 1))) by lia.
    simpl. lra.
Qed.

Lemma ladder_fold_range c x (l : list Z) er0 cur0 :
  0 <= max_reach_percent c →
  map_Forall (λ _ v, 0 <= v <= max_reach_percent c) er0 →
  map_Forall (λ _ v, 0 <= v <= max_reach_percent c)
    (foldl (effective_reach_step c x) (er0, cur0) l).1.
Proof.
  intros Hm. revert er0 cur0. induction l as [|i l IH]; intros er0 cur0 H0; [done|].
  simpl. apply IH. unfold effective_reach_step. simpl.
  apply map_Forall_insert_2; [|done].
  rewrite clamp_python. by apply clamp_range.
Qed.

(** The stage either leaves the object untouched (degenerate branch) or
    assigns a ladder of clamped values. *)
Lemma stage4_inv c max_frequency ret c4 :
  calculate_effective_reach c max_frequency = Ok (ret, c4) →
  ((final_reach c <= 0 ∨ average_frequency c <= 0) ∧ c4 = c)
  ∨ (0 < final_reach c ∧ 0 < average_frequency c
     ∧ c4 = set_effective_reach ret c
     ∧ (0 <= max_reach_percent c →
        map_Forall (λ _ v, 0 <= v <= max_reach_percent c) ret)).
Proof.
  unfold calculate_effective_reach. case_decide as Hd.
  - intros [= _ <-]. by left.
  - destruct (pydiv (final_reach c) _) as [q|e]; [|done]. simpl.
    destruct (pydiv 1 _) as [x|e]; [|done]. simpl.
    intros [= <- <-]. right.
    split; [lra|]. split; [lra|]. split; [done|].
    intros Hm. by apply ladder_fold_range.
Qed.

Lemma stage4_total c max_frequency :
  total_universe c ≠ 0%Z →
  ∃ ret c4, calculate_effective_reach c max_frequency = Ok (ret, c4).
Proof.
  intros HU.
  destruct (decide (final_reach c <= 0 ∨ average_frequency c <= 0)) as [Hd|Hd].
  - unfold calculate_effective_reach. rewrite decide_True by done. eauto.
  - destruct (calculate_effective_reach_positive c max_frequency)
      as (l & H & _); [done|lra|lra|]. eauto.
Qed.

(** The result record of a run, from the state the four stages leave. *)
Lemma run_all_calculations_inv c r c' :
  run_all_calculations c = Ok (r, c') →
  ∃ r1 c1 r2 c2 r3 c3 r4,
    calculate_channel_reach c = Ok (r1, c1)
    ∧ calculate_total_reach c1 = Ok (r2, c2)
    ∧ calculate_frequency c2 = Ok (r3, c3)
    ∧ calculate_effective_reach c3 6 = Ok (r4, c')
    ∧ total_universe c' ≠ 0%Z
    ∧ r = Results.mk (channel_contributions c')
            (raw_total_reach c' / IZR (total_universe c') * 100)
            (overlapped_reach c' / IZR (total_universe c') * 100)
            (final_reach c')
            (final_reach c' / IZR (total_universe c') * 100)
            (average_frequency c') (effective_reach c').
Proof.
  unfold run_all_calculations.
  destruct (calculate_channel_reach c) as [[r1 c1]|e] eqn:H1; [|done]. simpl.
  destruct (calculate_total_reach c1) as [[r2 c2]|e] eqn:H2; [|done]. simpl.
  destruct (calculate_frequency c2) as [[r3 c3]|e] eqn:H3; [|done]. simpl.
  destruct (calculate_effective_reach c3 6) as [[r4 c4]|e] eqn:H4; [|done]. simpl.
  unfold pydiv. case_decide as HU; [done|]. simpl.
  intros [= <- <-]. exists r1, c1, r2, c2, r3, c3, r4.
  repeat (split; [done|]). split; [|done].
  intros H. apply HU. by rewrite H.
Qed.

Lemma run_all_calculations_total c r1 c1 :
  calculate_channel_reach c = Ok (r1, c1) →
  total_universe c1 ≠ 0%Z →
  ∃ r c', run_all_calculations c = Ok (r, c').
Proof.
  intros H1 HU. unfold run_all_calculations. rewrite H1. simpl.
  destruct (calculate_total_reach_Ok c1) as [fr ->]. simpl.
  rewrite calculate_frequency_Ok. cbv zeta. simpl.
  match goal with |- context [calculate_effective_reach ?s 6] =>
    destruct (stage4_total s 6) as (r4 & c4 & H4); [done|];
    pose proof (stage4_inv _ _ _ _ H4) as Hinv; rewrite H4
  end.
  simpl.
  assert (HU4 : IZR (total_universe c4) ≠ 0).
  { intros H. apply eq_IZR_R0 in H. apply HU.
    destruct Hinv as [[_ ->]|(_ & _ & -> & _)]; done. }
  rewrite !pydiv_Ok by done. simpl. eauto.
Qed.

(** A run on an accepted plan returns exactly when the first loop of the
    Channel Reach Stage meets no zero ceiling. *)
Lemma run_all_calculations_addressable U I mrp gof di cp ef c :
  init U I mrp gof di cp ef = Ok c →
  addressable c →
  ∃ r c', run_all_calculations c = Ok (r, c').
Proof.
  intros Hinit Ha. apply init_inv in Hinit as (-> & HU & _).
  set (c := mkCalculator _ _ _ _ _ _ _ _ _ _ _ _ _ _) in *.
  destruct (channel_reach_loop_total c eq_refl Ha) as (cr & tot & Hloop).
  eapply run_all_calculations_total.
  - rewrite calculate_channel_reach_fresh, Hloop by done. simpl. done.
  - simpl. lia.
Qed.

(** Everything a returned run on an accepted plan determines. *)
Lemma run_fresh_inv U I mrp gof di cp ef c r c' :
  init U I mrp gof di cp ef = Ok c →
  run_all_calculations c = Ok (r, c') →
  ∃ cr tot,
    channel_reach_loop c = Ok (cr, tot)
    ∧ tot = pysum cr
    ∧ map_Forall (λ _ v, 0 <= v) cr
    ∧ (1000000 ≤ U)%Z ∧ 0 <= mrp <= 99.8
    ∧ channel_reach c' = cr
    ∧ raw_total_reach c' = pysum cr
    ∧ overlapped_reach c' = 0
    ∧ 0 <= final_reach c' <= mrp / 100 * IZR U
    ∧ average_frequency c'
      = (if decide (final_reach c' <= 0) then 0
         else pymin (pymax 1 (IZR I / final_reach c')) 20)
    ∧ (final_reach c' <= 0 → effective_reach c' = ∅)
    ∧ map_Forall (λ _ v, 0 <= v <= mrp) (effective_reach c')
    ∧ Results.channel_contributions r
      = (if decide (0 < tot) then (λ v, v / tot * 100) <$> cr
         else (λ _, 0) <$> cr)
    ∧ Results.raw_reach_percent r = pysum cr / IZR U * 100
    ∧ Results.overlapped_reach_percent r = overlapped_reach c' / IZR U * 100
    ∧ Results.final_reach r = final_reach c'
    ∧ Results.final_reach_percent r = final_reach c' / IZR U * 100
    ∧ Results.average_frequency r = average_frequency c'
    ∧ Results.effective_reach r = effective_reach c'.
Proof.
  intros Hinit Hrun.
  apply run_all_calculations_inv in Hrun
    as (r1 & c1 & r2 & c2 & r3 & c3 & r4 & H1 & H2 & H3 & H4 & _ & ->).
  destruct (pipeline_inv _ _ _ _ _ _ _ _ _ _ _ _ _ _ Hinit H1 H2 H3)
    as (HU & Hmrp & HUmin & Hm & Hcap & _).
  apply init_inv in Hinit as (-> & _).
  apply stage1_fresh_inv in H1 as (cr & tot & Hloop & Htot & Hnn & _ & ->); [|done..].
  apply stage2_inv in H2 as ->.
  pose proof H3 as H3'. rewrite calculate_frequency_Ok in H3'. cbv zeta in H3'.
  injection H3' as Haf _. simpl in Haf.
  apply stage3_inv in H3 as [-> _]. simpl in *.
  exists cr, tot. split; [done|]. split; [done|]. split; [done|].
  split; [done|]. split; [done|].
  apply stage4_inv in H4 as [[Hd ->]|(Hf & Ha & -> & Hrange)]; simpl in *.
  - repeat split; try done; try lra.
  - specialize (Hrange ltac:(lra)).
    repeat split; try done; try lra.
    all: match goal with H : _ !! _ = Some _ |- _ =>
           by destruct (Hrange _ _ H) end.
Qed.

Lemma calculate_total_reach_zero c fr c' :
  calculate_total_reach c = Ok (fr, c') →
  pysum (channel_reach c) = 0 →
  0 <= max_reach_percent c / 100 * IZR (total_universe c) →
  fr = 0.
Proof.
  intros H Hz Hcap. revert H. unfold calculate_total_reach.
  case_decide; [by intros [= <- _]|].
  rewrite Hz. rewrite decide_False by lra. simpl. intros [= <- _].
  unfold pymin, pymax. repeat case_decide; lra.
Qed.

(** The first loop raises exactly on a zero ceiling. *)
Lemma channel_stage_raises_iff c :
  channel_reach c = ∅ → channel_contributions c = ∅ →
  calculate_channel_reach c = Raise ZeroDivisionError ↔ ¬ addressable c.
Proof.
  intros He Hc. rewrite calculate_channel_reach_fresh by done. split.
  - intros H Ha. destruct (channel_reach_loop_total c He Ha) as (cr & tot & Hl).
    by rewrite Hl in H.
  - intros Hna. destruct (channel_reach_loop c) as [[cr tot]|e] eqn:Hl.
    + exfalso. apply Hna. by destruct (channel_reach_loop_inv c cr tot He Hl) as (_ & _ & ?).
    + simpl. by rewrite (channel_reach_loop_raises c e He Hl).
Qed.

(** The dictionary the degenerate branch of [calculate_effective_reach]
    returns. *)
Lemma zero_ladder_lookup (n : nat) (lo : Z) :
  ∀ k, (lo ≤ k < lo + Z.of_nat n)%Z →
    foldl (λ d i, <[threshold_key i := 0]> d) (∅ : gmap string R)
      (seqZ lo (Z.of_nat n)) !! threshold_key k = Some 0.
Proof.
  induction n as [|n IH]; intros k Hk; [lia|].
  rewrite seqZ_S, foldl_app. simpl.
  destruct (decide (k = lo + Z.of_nat n)%Z) as [->|Hne].
  - by rewrite lookup_insert_eq.
  - rewrite lookup_insert_ne; [apply IH; lia|].
    intros Heq. apply threshold_key_inj in Heq. lia.
Qed.

Lemma calculate_effective_reach_degenerate c max_frequency :
  final_reach c <= 0 ∨ average_frequency c <= 0 →
  ∃ ret,
    calculate_effective_reach c max_frequency = Ok (ret, c)
    ∧ ∀ k, (2 ≤ k ≤ max_frequency)%Z → ret !! threshold_key k = Some 0.
Proof.
  intros Hd. unfold calculate_effective_reach. rewrite decide_True by done.
  eexists. split; [done|]. intros k Hk. unfold range.
  pose proof (zero_ladder_lookup (Z.to_nat (max_frequency + 1 - 2)) 2 k) as H.
  rewrite Z2Nat.id in H by lia. apply H. lia.
Qed.

(** With no positive impressions, an accepted plan runs to a result in
    which reach and frequency are 0 and the ladder is the empty
    dictionary the constructor assigned. *)
Lemma zero_impressions_run U I mrp gof di cp ef c :
  init U I mrp gof di cp ef = Ok c →
  map_Forall (λ _ i, (i ≤ 0)%Z) di →
  ∃ r c',
    run_all_calculations c = Ok (r, c')
    ∧ raw_total_reach c' = 0 ∧ final_reach c' = 0 ∧ average_frequency c' = 0
    ∧ Results.final_reach r = 0 ∧ Results.average_frequency r = 0
    ∧ Results.effective_reach r = ∅.
Proof.
  intros Hinit Hz.
  pose proof Hinit as Hi. apply init_inv in Hi as (-> & _).
  set (c := mkCalculator _ _ _ _ _ _ _ _ _ _ _ _ _ _) in *.
  destruct (run_all_calculations_addressable _ _ _ _ _ _ _ _ Hinit) as (r & c' & Hrun).
  { intros ch imp pen Hi _ Hpos.
    simpl in Hi. specialize (Hz ch imp Hi). simpl in Hz. lia. }
  exists r, c'. split; [done|].
  destruct (run_fresh_inv _ _ _ _ _ _ _ _ _ _ Hinit Hrun)
    as (cr & tot & Hloop & Htot & Hnn & HU & Hm & Hcr & Hraw & _ & Hcap & Haf
        & Her & _ & _ & _ & _ & Hrf & _ & Hra & Hre).
  assert (Hsum : pysum cr = 0).
  { apply pysum_all_zero. intros ch v Hv.
    destruct (channel_reach_loop_inv c cr tot eq_refl Hloop) as (_ & Hlk & _).
    rewrite Hlk in Hv. simpl in Hv.
    destruct (di !! ch) as [imp|] eqn:Hdi; [|done]. simpl in Hv.
    destruct (cp !! ch) as [pen|]; [|done]. simpl in Hv. injection Hv as <-.
    unfold channel_value. rewrite decide_False; [done|].
    specialize (Hz ch imp Hdi). simpl in Hz. lia. }
  assert (Hfr : final_reach c' = 0).
  { apply run_all_calculations_inv in Hrun
      as (r1 & c1 & r2 & c2 & r3 & c3 & r4 & H1 & H2 & H3 & H4 & _ & _).
    apply stage1_fresh_inv in H1 as (cr' & tot' & Hloop' & _ & _ & _ & ->); [|done..].
    rewrite Hloop in Hloop'. injection Hloop' as <- <-.
    pose proof (calculate_total_reach_zero _ _ _ H2) as Hzero. simpl in Hzero.
    assert (0 <= mrp / 100 * IZR U).
    { assert (HU' : 0 <= IZR U) by (apply (IZR_le 0); lia).
      apply Rmult_le_pos; lra. }
    specialize (Hzero Hsum ltac:(done)).
    apply stage2_inv in H2 as ->. apply stage3_inv in H3 as [-> _].
    apply stage4_inv in H4 as [[_ ->]|(_ & _ & -> & _)]; simpl; done. }
  rewrite Hraw, Hrf, Hra, Hre, Haf, Hfr, Hsum.
  rewrite decide_True by lra. rewrite Her by lra. done.
Qed.

(** ** The example plans *)

Lemma exp_minus_one_lt_half : exp (- (1)) < 1 / 2.
Proof.
  rewrite exp_Ropp.
  assert (H2 : 2 < exp 1).
  { pose proof (exp_ineq1 1 ltac:(lra)). lra. }
  apply Rmult_lt_reg_r with (exp 1); [lra|].
  rewrite Rinv_l by lra. lra.
Qed.

Lemma pysum_two (m : gmap string R) a b x y :
  map_Forall (λ _ v, 0 <= v) m →
  a ≠ b → m !! a = Some x → m !! b = Some y →
  x + y <= pysum m.
Proof.
  intros Hnn Hab Ha Hb.
  rewrite <- (insert_delete_id m a x Ha).
  rewrite pysum_insert by apply lookup_delete_eq.
  assert (y <= pysum (delete a m)).
  { apply (pysum_lookup_le _ b); [by apply map_Forall_delete|].
    by rewrite lookup_delete_ne. }
  lra.
Qed.

Lemma single_channel_init imp pen :
  init 1000000 1000000 90 0.5 {["A" := imp]} {["A" := pen]} {["A" := 0.7]}
  = Ok (single_channel_plan imp pen).
Proof. apply init_Ok; lia || lra. Qed.

Lemma single_channel_valid imp pen :
  (0 ≤ imp)%Z → 0 <= pen <= 1 → valid_plan (single_channel_plan imp pen).
Proof.
  intros Hi Hp. unfold valid_plan. simpl.
  split_and!; try lia; try lra; apply map_Forall_singleton; lia || lra.
Qed.

Lemma single_channel_addressable imp pen :
  pen ≠ 0 ∨ (imp ≤ 0)%Z → addressable (single_channel_plan imp pen).
Proof.
  intros H ch i p Hi Hp Hpos. simpl in *.
  apply lookup_singleton_Some in Hi as [_ <-].
  apply lookup_singleton_Some in Hp as [_ <-].
  destruct H as [H|H]; [|lia]. intros Hz.
  apply Rmult_integral in Hz as [Hz|Hz]; [done|lra].
Qed.

Lemma single_channel_loop imp pen :
  (0 < imp)%Z → pen ≠ 0 →
  channel_reach_loop (single_channel_plan imp pen)
  = Ok ({["A" := channel_value (single_channel_plan imp pen) pen imp]},
        0 + channel_value (single_channel_plan imp pen) pen imp).
Proof.
  intros Hi Hp. unfold channel_reach_loop.
  change (distributed_impressions (single_channel_plan imp pen)) with
    ({["A" := imp]} : gmap string Z).
  rewrite map_fold_singleton, channel_reach_step_Ok.
  change (channel_penetration (single_channel_plan imp pen)) with
    ({["A" := pen]} : gmap string R).
  rewrite lookup_singleton_eq, decide_True by done.
  rewrite decide_False.
  - reflexivity.
  - simpl. intros Hz. apply Rmult_integral in Hz as [Hz|Hz]; [done|lra].
Qed.

Lemma stage1_total U I mrp gof di cp ef c :
  init U I mrp gof di cp ef = Ok c → addressable c →
  ∃ ret c1, calculate_channel_reach c = Ok (ret, c1).
Proof.
  intros Hinit Ha. apply init_inv in Hinit as (-> & _).
  set (c := mkCalculator _ _ _ _ _ _ _ _ _ _ _ _ _ _) in *.
  destruct (channel_reach_loop_total c eq_refl Ha) as (cr & tot & Hloop).
  rewrite calculate_channel_reach_fresh, Hloop by done. simpl. eauto.
Qed.

Lemma calculate_total_reach_positive c fr c' :
  calculate_total_reach c = Ok (fr, c') →
  0 < pysum (channel_reach c) → 0 < efficiency_sum c →
  global_overlap_factor c < 1 →
  0 < max_reach_percent c / 100 * IZR (total_universe c) →
  0 < fr.
Proof.
  intros H Hs He Hg Hcap. revert H. unfold calculate_total_reach.
  case_decide as Hempty.
  { rewrite Hempty, pysum_empty in Hs. lra. }
  rewrite decide_True by done. rewrite pydiv_Ok by lra. simpl.
  intros [= <- _].
  assert (0 < efficiency_sum c / pysum (channel_reach c))
    by (by apply Rdiv_lt_0_compat).
  assert (0 < pysum (channel_reach c) * (1 - global_overlap_factor c)
              * (efficiency_sum c / pysum (channel_reach c))).
  { apply Rmult_lt_0_compat; [|done]. apply Rmult_lt_0_compat; lra. }
  unfold pymin, pymax. repeat case_decide; lra.
Qed.

(** The single-channel plan with 1,000,000 impressions and penetration 1
    runs through the first three stages to a positive reach. *)
Lemma single_channel_pipeline :
  ∃ r1 c1 r2 c2 r3 c3,
    calculate_channel_reach (single_channel_plan 1000000 1) = Ok (r1, c1)
    ∧ calculate_total_reach c1 = Ok (r2, c2)
    ∧ calculate_frequency c2 = Ok (r3, c3)
    ∧ 0 < final_reach c3 ∧ 0 < average_frequency c3.
Proof.
  set (plan := single_channel_plan 1000000 1).
  pose proof (single_channel_loop 1000000 1 ltac:(lia) ltac:(lra)) as Hloop.
  fold plan in Hloop.
  destruct (channel_value_saturating plan 1 1000000) as [_ [Hv _]];
    [simpl; lra|lia|].
  set (v := channel_value plan 1 1000000) in *.
  pose proof (calculate_channel_reach_fresh plan eq_refl) as H1.
  rewrite Hloop in H1. simpl in H1.
  eexists _, _. 
  destruct (calculate_total_reach_Ok
    (set_channel_contributions
       (if decide (0 < 0 + v) then (λ r0 : R, r0 / (0 + v) * 100) <$> {["A" := v]}
        else (λ _ : R, 0) <$> {["A" := v]})
       (set_channel_reach {["A" := v]} plan))) as [fr H2].
  assert (Hfr : 0 < fr).
  { eapply calculate_total_reach_positive; [exact H2|simpl..].
    - rewrite pysum_singleton. done.
    - unfold efficiency_sum. simpl. rewrite map_fold_singleton.
      rewrite lookup_singleton_eq. simpl. lra.
    - lra.
    - lra. }
  eexists fr, _. 
  eexists _, _. split; [exact H1|]. split; [exact H2|].
  rewrite calculate_frequency_Ok. cbv zeta. split; [done|]. simpl.
  split; [done|]. rewrite decide_False by lra.
  pose proof (pymax_bounds 1 (1000000 / fr)) as [Hb _].
  apply Rlt_le_trans with 1; [lra|]. apply pymin_lower; lra.
Qed.

(** ** The result record *)

Lemma contribution_range (cr : gmap string R) tot :
  map_Forall (λ _ v, 0 <= v) cr → tot = pysum cr →
  map_Forall (λ _ v, 0 <= v <= 100)
    (if decide (0 < tot) then (λ v, v / tot * 100) <$> cr else (λ _, 0) <$> cr).
Proof.
  intros Hnn Htot k w Hk. case_decide as Hpos.
  - rewrite lookup_fmap in Hk. destruct (cr !! k) as [v|] eqn:Hv; [|done].
    simpl in Hk. injection Hk as <-.
    pose proof (Hnn k v Hv) as H0. simpl in H0.
    pose proof (pysum_lookup_le cr k v Hnn Hv) as Hle. rewrite <- Htot in Hle.
    assert (Hq : 0 <= v / tot <= 1).
    { split.
      - apply Rmult_le_pos; [done|]. apply Rlt_le. by apply Rinv_0_lt_compat.
      - apply Rmult_le_reg_r with tot; [done|].
        unfold Rdiv. rewrite Rmult_assoc, Rinv_l by lra. lra. }
    simpl. lra.
  - rewrite lookup_fmap in Hk. destruct (cr !! k); [|done].
    simpl in Hk. injection Hk as <-. simpl. lra.
Qed.

(** The attribute [overlapped_reach] is assigned by the constructor
    only: every returned run reports 0 for its percentage. *)
Lemma overlapped_reach_percent_zero U I mrp gof di cp ef c r c' :
  init U I mrp gof di cp ef = Ok c →
  run_all_calculations c = Ok (r, c') →
  overlapped_reach c' = 0 ∧ Results.overlapped_reach_percent r = 0.
Proof.
  intros Hinit Hrun.
  destruct (run_fresh_inv _ _ _ _ _ _ _ _ _ _ Hinit Hrun)
    as (cr & tot & _ & _ & _ & _ & _ & _ & _ & Hov & _ & _ & _ & _ & _ & _ & Hp & _).
  split; [done|]. rewrite Hp, Hov. lra.
Qed.

(** C2 (amended). For every plan the constructor accepts, a run that
    returns gives channel contributions in [[0, 100]], a
    [final_reach_percent] in [[0, 100]], a [final_reach] between 0 and
    the cap [max_reach_percent / 100 * total_universe], effective-reach
    values in [[0, 100]] that are at most [max_reach_percent], and a
    [raw_reach_percent] that is at least 0; [raw_reach_percent] has no
    upper bound of 100.  The cap is on the count [final_reach]:
    [final_reach_percent] is recomputed from that count and is not
    compared with [max_reach_percent] here.  The run returns whenever
    the plan's integers convert to floats and no channel with positive
    impressions has a zero ceiling [penetration * total_universe]. *)
Theorem C2_percentages_in_range U I mrp gof di cp ef c :
  init U I mrp gof di cp ef = Ok c →
  (∀ r c', run_all_calculations c = Ok (r, c') →
     map_Forall (λ _ v, 0 <= v <= 100) (Results.channel_contributions r)
     ∧ 0 <= Results.raw_reach_percent r
     ∧ 0 <= Results.final_reach_percent r <= 100
     ∧ 0 <= Results.final_reach r <= mrp / 100 * IZR U
     ∧ map_Forall (λ _ v, 0 <= v <= 100 ∧ v <= mrp) (Results.effective_reach r))
  ∧ (convertible_plan c → addressable c →
     ∃ r c', run_all_calculations c = Ok (r, c')).
Proof.
  intros Hinit.
  split; [|intros _; by eapply run_all_calculations_addressable].
  intros r c' Hrun.
  destruct (run_fresh_inv _ _ _ _ _ _ _ _ _ _ Hinit Hrun)
    as (cr & tot & _ & Htot & Hnn & HU & Hm & _ & _ & _ & Hcap & _ & _ & Her
        & Hcc & Hraw & _ & Hrf & Hfp & _ & Hre).
  pose proof (percent_of_cap (final_reach c') mrp U ltac:(lia) Hcap) as Hpc.
  assert (HU' : 0 < IZR U) by (apply (IZR_lt 0); lia).
  split; [rewrite Hcc; by apply contribution_range|].
  split.
  { rewrite Hraw. pose proof (pysum_nonneg cr Hnn).
    apply Rmult_le_pos; [|lra]. apply Rmult_le_pos; [done|].
    apply Rlt_le. by apply Rinv_0_lt_compat. }
  rewrite Hfp, Hrf, Hre. split; [lra|]. split; [exact Hcap|].
  intros k v Hk. pose proof (Her k v Hk) as Hv. simpl in Hv. simpl. lra.
Qed.

(** C2 (amended) on the single-channel plan with 1,000,000 impressions
    and penetration 1. *)
Lemma C2_witness :
  ∃ r c',
    run_all_calculations (single_channel_plan 1000000 1) = Ok (r, c')
    ∧ 0 <= Results.final_reach_percent r <= 100
    ∧ 0 <= Results.final_reach r <= 90 / 100 * 1000000.
Proof.
  destruct (C2_percentages_in_range _ _ _ _ _ _ _ _ (single_channel_init 1000000 1))
    as [Hrange Hreturns].
  destruct Hreturns as (r & c' & Hrun).
  - split; [reflexivity|]. split; [reflexivity|].
    apply map_Forall_singleton. reflexivity.
  - apply single_channel_addressable. left. lra.
  - exists r, c'. split; [exact Hrun|].
    destruct (Hrange r c' Hrun) as (_ & _ & H100 & Hmax & _). split; [exact H100|exact Hmax].
Defined.

Lemma two_channel_init :
  init 1000000 2000000 90 0.5 (<["A" := 1000000%Z]> {["B" := 1000000%Z]})
    (<["A" := 1]> {["B" := 1]}) (<["A" := 1]> {["B" := 1]})
  = Ok two_channel_plan.
Proof. apply init_Ok; lia || lra. Qed.

Lemma two_channel_valid : valid_plan two_channel_plan.
Proof.
  unfold valid_plan. simpl. split_and!; try lia; try lra.
  - intros k v Hk. apply lookup_insert_Some in Hk as [[_ <-]|[_ Hk]]; [lia|].
    apply lookup_singleton_Some in Hk as [_ <-]. lia.
  - intros k v Hk. apply lookup_insert_Some in Hk as [[_ <-]|[_ Hk]]; [simpl; lra|].
    apply lookup_singleton_Some in Hk as [_ <-]. simpl. lra.
  - intros k v Hk. apply lookup_insert_Some in Hk as [[_ <-]|[_ Hk]]; [simpl; lra|].
    apply lookup_singleton_Some in Hk as [_ <-]. simpl. lra.
Qed.

Lemma two_channel_addressable : addressable two_channel_plan.
Proof.
  intros ch imp pen _ Hp _. simpl in *.
  apply lookup_insert_Some in Hp as [[_ <-]|[_ Hp]]; [lra|].
  apply lookup_singleton_Some in Hp as [_ <-]. lra.
Qed.

(** C2, as stated, fails: two channels that each address the whole
    universe, with 1,000,000 impressions each, give a valid plan whose
    [raw_reach_percent] is [200 * (1 - exp(-1))], above 100. *)
Lemma C2_counterexample_raw_reach_percent :
  valid_plan two_channel_plan
  ∧ construct two_channel_plan = Ok two_channel_plan
  ∧ ∃ r c',
      run_all_calculations two_channel_plan = Ok (r, c')
      ∧ 100 < Results.raw_reach_percent r
      ∧ ¬ (0 <= Results.raw_reach_percent r <= 100).
Proof.
  split; [exact two_channel_valid|]. split; [exact two_channel_init|].
  destruct (run_all_calculations_addressable _ _ _ _ _ _ _ _
              two_channel_init two_channel_addressable) as (r & c' & Hrun).
  exists r, c'. split; [exact Hrun|].
  destruct (run_fresh_inv _ _ _ _ _ _ _ _ _ _ two_channel_init Hrun)
    as (cr & tot & Hloop & _ & Hnn & _ & _ & _ & _ & _ & _ & _ & _ & _
        & _ & Hraw & _).
  destruct (channel_reach_loop_inv two_channel_plan cr tot eq_refl Hloop)
    as (_ & Hlk & _).
  assert (HA : cr !! "A" = Some (channel_value two_channel_plan 1 1000000))
    by (by rewrite Hlk).
  assert (HB : cr !! "B" = Some (channel_value two_channel_plan 1 1000000))
    by (by rewrite Hlk).
  destruct (channel_value_saturating two_channel_plan 1 1000000) as [Hv _];
    [simpl; lra|lia|].
  simpl in Hv.
  replace (- (1000000) / (1 * 1000000)) with (- (1)) in Hv by lra.
  pose proof exp_minus_one_lt_half as Hexp.
  pose proof (pysum_two cr "A" "B" _ _ Hnn ltac:(done) HA HB) as Hsum.
  rewrite Hv in Hsum.
  assert (H100 : 100 < Results.raw_reach_percent r) by (rewrite Hraw; lra).
  split; [exact H100|lra].
Qed.

(** C1. On the valid single-channel plan (channel ["A"] present in both
    mappings, 1,000,000 impressions, penetration 1, overlap factor 0.5)
    the run returns, the reported [overlapped_reach_percent] is 0, and
    [raw_total_reach * (1 - global_overlap_factor) / total_universe * 100]
    is positive: the reported value is not the overlap-discounted reach
    as a percentage of the universe. *)
Theorem C1_overlapped_reach_percent_not_computed :
  valid_plan (single_channel_plan 1000000 1)
  ∧ construct (single_channel_plan 1000000 1) = Ok (single_channel_plan 1000000 1)
  ∧ is_Some (distributed_impressions (single_channel_plan 1000000 1) !! "A")
  ∧ is_Some (channel_penetration (single_channel_plan 1000000 1) !! "A")
  ∧ ∃ r c',
      run_all_calculations (single_channel_plan 1000000 1) = Ok (r, c')
      ∧ Results.overlapped_reach_percent r = 0
      ∧ 0 < raw_total_reach c' * (1 - 0.5) / 1000000 * 100
      ∧ Results.overlapped_reach_percent r
        ≠ raw_total_reach c' * (1 - 0.5) / 1000000 * 100.
Proof.
  split; [apply single_channel_valid; lia || lra|].
  split; [apply single_channel_init|].
  split; [simpl; by rewrite lookup_singleton_eq|].
  split; [simpl; by rewrite lookup_singleton_eq|].
  pose proof (single_channel_init 1000000 1) as Hinit.
  destruct (run_all_calculations_addressable _ _ _ _ _ _ _ _ Hinit) as (r & c' & Hrun).
  { apply single_channel_addressable. left. lra. }
  exists r, c'. split; [exact Hrun|].
  destruct (overlapped_reach_percent_zero _ _ _ _ _ _ _ _ _ _ Hinit Hrun) as [_ Hzero].
  destruct (run_fresh_inv _ _ _ _ _ _ _ _ _ _ Hinit Hrun)
    as (cr & tot & Hloop & _ & _ & _ & _ & _ & Hraw & _).
  rewrite single_channel_loop in Hloop by (lia || lra).
  injection Hloop as <- _.
  rewrite pysum_singleton in Hraw.
  destruct (channel_value_saturating (single_channel_plan 1000000 1) 1 1000000)
    as [_ [Hv _]]; [simpl; lra|lia|].
  rewrite Hzero, Hraw. split; [done|]. split; lra.
Qed.

(** C3. On the valid single-channel plan with 10,000 impressions and
    penetration 0 the divisor [max_possible_reach] is 0 when the division
    is performed: the Channel Reach Stage, and with it the run, raises
    [ZeroDivisionError]. *)
Theorem C3_zero_penetration_raises :
  valid_plan (single_channel_plan 10000 0)
  ∧ construct (single_channel_plan 10000 0) = Ok (single_channel_plan 10000 0)
  ∧ calculate_channel_reach (single_channel_plan 10000 0) = Raise ZeroDivisionError
  ∧ run_all_calculations (single_channel_plan 10000 0) = Raise ZeroDivisionError.
Proof.
  split; [apply single_channel_valid; lia || lra|].
  split; [apply single_channel_init|].
  assert (H : calculate_channel_reach (single_channel_plan 10000 0)
              = Raise ZeroDivisionError).
  { unfold calculate_channel_reach, channel_reach_loop.
    change (distributed_impressions (single_channel_plan 10000 0)) with
      ({["A" := 10000%Z]} : gmap string Z).
    rewrite map_fold_singleton, channel_reach_step_Ok.
    change (channel_penetration (single_channel_plan 10000 0)) with
      ({["A" := 0]} : gmap string R).
    rewrite lookup_singleton_eq, decide_True by lia.
    rewrite decide_True; [done|]. simpl. lra. }
  split; [exact H|].
  unfold run_all_calculations. by rewrite H.
Qed.

(** C5. On the valid single-channel plan with 0 impressions the run
    returns with [raw_total_reach], [final_reach] and [average_frequency]
    all 0, but the ladder in the result record is empty: no key ["k+"]
    is present.  The dictionary with 0 at ["2+"] to ["6+"] is what
    [calculate_effective_reach] returns; it is not stored. *)
Theorem C5_zero_impressions_ladder_missing :
  valid_plan (single_channel_plan 0 0.5)
  ∧ construct (single_channel_plan 0 0.5) = Ok (single_channel_plan 0 0.5)
  ∧ ∃ r c',
      run_all_calculations (single_channel_plan 0 0.5) = Ok (r, c')
      ∧ raw_total_reach c' = 0 ∧ final_reach c' = 0 ∧ average_frequency c' = 0
      ∧ Results.final_reach r = 0 ∧ Results.average_frequency r = 0
      ∧ Results.effective_reach r = ∅
      ∧ (∀ k, Results.effective_reach r !! threshold_key k = None)
      ∧ Results.effective_reach r !! "2+" = None
      ∧ ∃ ret,
          calculate_effective_reach c' 6 = Ok (ret, c')
          ∧ ret !! "2+" = Some 0 ∧ ret !! "3+" = Some 0 ∧ ret !! "4+" = Some 0
          ∧ ret !! "5+" = Some 0 ∧ ret !! "6+" = Some 0.
Proof.
  split; [apply single_channel_valid; lia || lra|].
  split; [apply single_channel_init|].
  destruct (zero_impressions_run _ _ _ _ _ _ _ _ (single_channel_init 0 0.5))
    as (r & c' & Hrun & Hraw & Hfr & Haf & Hrf & Hra & Her).
  { apply map_Forall_singleton. lia. }
  exists r, c'. split; [exact Hrun|].
  do 6 (split; [done|]). rewrite Her.
  split; [intros k; apply lookup_empty|]. split; [apply lookup_empty|].
  destruct (calculate_effective_reach_degenerate c' 6) as (ret & Hret & Hlk);
    [left; lra|].
  exists ret. split; [exact Hret|].
  split_and!; [apply (Hlk 2%Z)|apply (Hlk 3%Z)|apply (Hlk 4%Z)
              |apply (Hlk 5%Z)|apply (Hlk 6%Z)]; lia.
Qed.

(** ** Instances of the conditional statements *)


(** C10 on the single-channel plan, whose efficiency factor is 0.7. *)
Lemma C10_witness :
  ∃ ret c1 c2,
    calculate_channel_reach (single_channel_plan 1000000 1) = Ok (ret, c1)
    ∧ calculate_total_reach c1 = Ok (final_reach c2, c2)
    ∧ final_reach c2 <= 0.65 * raw_total_reach c2.
Proof.
  destruct (stage1_total _ _ _ _ _ _ _ _ (single_channel_init 1000000 1))
    as (ret & c1 & H1).
  { apply single_channel_addressable. left. lra. }
  assert (Hef : map_Forall (λ (_ : string) (e : R), 0 <= e <= 1)
                  ({["A" := 0.7]} : gmap string R)).
  { apply map_Forall_singleton. lra. }
  destruct (C10_final_reach_discounted _ _ _ _ _ _ _ _ ret c1
              (single_channel_init 1000000 1) Hef H1)
    as (c2 & H2 & _ & _ & H65 & _).
  exists ret, c1, c2. split; [exact H1|]. split; [exact H2|exact H65].
Defined.

(** C6 on the single-channel plan: the entry at [3+] is the entry at
    [2+] times [(1 - x)]. *)
Lemma C6_witness :
  ∃ r1 c1 r2 c2 r3 c3 c4,
    calculate_channel_reach (single_channel_plan 1000000 1) = Ok (r1, c1)
    ∧ calculate_total_reach c1 = Ok (r2, c2)
    ∧ calculate_frequency c2 = Ok (r3, c3)
    ∧ calculate_effective_reach c3 6 = Ok (effective_reach c4, c4)
    ∧ ∃ prior,
        effective_reach c4 !! threshold_key 2 = Some prior
        ∧ effective_reach c4 !! threshold_key 3
          = Some (prior * (1 - 1 / Rmax 1 (average_frequency c3))).
Proof.
  destruct single_channel_pipeline
    as (r1 & c1 & r2 & c2 & r3 & c3 & H1 & H2 & H3 & Hf & Ha).
  destruct (C6_effective_reach_geometric _ _ _ _ _ _ _ _ _ _ _ _ _ _ 6
              (single_channel_init 1000000 1) H1 H2 H3 Hf Ha)
    as (c4 & H4 & Hk).
  exists r1, c1, r2, c2, r3, c3, c4.
  split; [exact H1|]. split; [exact H2|]. split; [exact H3|]. split; [exact H4|].
  destruct (Hk 3%Z ltac:(lia)) as (_ & _ & _ & Hprior).
  apply Hprior. lia.
Defined.

(** ** Further properties of the Channel Reach Stage *)

(** What the stage returns on an accepted plan, entry by entry. *)
Lemma stage1_entries U I mrp gof di cp ef c cr cc c1 :
  init U I mrp gof di cp ef = Ok c →
  calculate_channel_reach c = Ok ((cr, cc), c1) →
  (∀ ch, cr !! ch = imp ← di !! ch; pen ← cp !! ch; Some (channel_value c pen imp))
  ∧ cc = (if decide (0 < pysum cr) then (λ r, r / pysum cr * 100) <$> cr
          else (λ _, 0) <$> cr)
  ∧ map_Forall (λ _ v, 0 <= v) cr
  ∧ addressable c
  ∧ total_universe c = U ∧ (1000000 ≤ U)%Z.
Proof.
  intros Hinit H1. apply init_inv in Hinit as (-> & HU & _).
  set (c := mkCalculator _ _ _ _ _ _ _ _ _ _ _ _ _ _) in *.
  apply stage1_fresh_inv in H1 as (cr' & tot & Hloop & Htot & Hnn & Hret & ->);
    [|done..].
  simpl in Hret. injection Hret as <- ->.
  destruct (channel_reach_loop_inv c cr tot eq_refl Hloop) as (_ & Hlk & Ha).
  rewrite Htot. done.
Qed.

(** X1. On an accepted plan the Channel Reach Stage gives a reach and a
    contribution to exactly the channels present in both
    [distributed_impressions] and [channel_penetration]; a counted channel
    without positive impressions has reach 0 and contribution 0; and the
    reach of a channel with non-negative penetration lies between 0 and
    [penetration * total_universe]. *)
Theorem X1_channel_reach_entries U I mrp gof di cp ef c cr cc c1 :
  init U I mrp gof di cp ef = Ok c →
  calculate_channel_reach c = Ok ((cr, cc), c1) →
  dom cr = dom di ∩ dom cp
  ∧ dom cc = dom cr
  ∧ (∀ ch imp, di !! ch = Some imp → is_Some (cp !! ch) → (imp ≤ 0)%Z →
               cr !! ch = Some 0 ∧ cc !! ch = Some 0)
  ∧ (∀ ch v pen, cr !! ch = Some v → cp !! ch = Some pen → 0 <= pen →
                 0 <= v <= pen * IZR U).
Proof.
  intros Hinit H1.
  destruct (stage1_entries _ _ _ _ _ _ _ _ _ _ _ Hinit H1)
    as (Hlk & Hcc & Hnn & _ & HU & HUmin).
  assert (Hdomcc : dom cc = dom cr).
  { rewrite Hcc. case_decide; apply dom_fmap_L. }
  split.
  { apply set_eq. intros ch. rewrite elem_of_intersection, !elem_of_dom, Hlk.
    destruct (di !! ch) as [imp|]; simpl.
    - destruct (cp !! ch) as [pen|]; simpl.
      + split; [intros _; split; eauto|eauto].
      + split; [intros [? ?]; done|intros [_ [? ?]]; done].
    - split; [intros [? ?]; done|intros [[? ?] _]; done]. }
  split; [done|]. split.
  - intros ch imp Hdi [pen Hcp] Himp.
    assert (Hcr : cr !! ch = Some 0).
    { rewrite Hlk, Hdi. simpl. rewrite Hcp. simpl.
      unfold channel_value. by rewrite decide_False by lia. }
    split; [done|]. rewrite Hcc. case_decide.
    + rewrite lookup_fmap, Hcr. simpl. f_equal. unfold Rdiv. lra.
    + by rewrite lookup_fmap, Hcr.
  - intros ch v pen Hv Hcp Hpen. rewrite Hlk in Hv.
    destruct (di !! ch) as [imp|]; [|done]. simpl in Hv.
    rewrite Hcp in Hv. simpl in Hv. injection Hv as <-.
    split; [apply channel_value_nonneg|].
    assert (Hm : 0 <= pen * IZR U).
    { apply Rmult_le_pos; [done|]. apply (IZR_le 0). lia. }
    unfold channel_value. rewrite HU.
    destruct (decide (0 < imp)%Z); [|exact Hm].
    match goal with |- pymax 0 ?a <= _ =>
      pose proof (pymin_bounds (pen * IZR U * (1 - exp (- IZR imp / (pen * IZR U))))
                    (pen * IZR U)) as [_ Hb];
      generalize dependent a end.
    intros a Hb. unfold pymax. destruct (decide (0 < a)); lra.
Qed.

Lemma X1_witness :
  ∃ cr cc c1,
    calculate_channel_reach (single_channel_plan 1000000 1) = Ok ((cr, cc), c1)
    ∧ dom cr = {["A"]} ∧ dom cc = {["A"]}.
Proof.
  destruct (stage1_total _ _ _ _ _ _ _ _ (single_channel_init 1000000 1))
    as ([cr cc] & c1 & H1).
  { apply single_channel_addressable. left. lra. }
  destruct (X1_channel_reach_entries _ _ _ _ _ _ _ _ _ _ _
              (single_channel_init 1000000 1) H1) as (Hd & Hdc & _).
  exists cr, cc, c1. split; [exact H1|].
  rewrite Hdc, Hd, !dom_singleton_L. split; set_solver.
Defined.

(** X2. The two clamps of the channel loop are never active on a
    channel with a penetration in (0, 1]: on an accepted plan, a counted
    channel with positive impressions and such a penetration is stored
    with the value of the formula itself,
    [m * (1 - exp(-impressions / m))], [m = penetration *
    total_universe], and that value lies between 0 and the ceiling [m],
    both ends included. *)
Theorem X2_reach_saturates U I mrp gof di cp ef c cr cc c1 ch imp pen :
  init U I mrp gof di cp ef = Ok c →
  calculate_channel_reach c = Ok ((cr, cc), c1) →
  di !! ch = Some imp → cp !! ch = Some pen →
  (0 < imp)%Z → 0 < pen <= 1 →
  let m := pen * IZR U in
  cr !! ch = Some (m * (1 - exp (- IZR imp / m)))
  ∧ 0 <= m * (1 - exp (- IZR imp / m)) <= m.
Proof.
  intros Hinit H1 Hdi Hcp Himp [Hpen _] m.
  destruct (stage1_entries _ _ _ _ _ _ _ _ _ _ _ Hinit H1)
    as (Hlk & _ & _ & _ & HU & HUmin).
  assert (Hm : 0 < m).
  { apply Rmult_lt_0_compat; [done|]. apply (IZR_lt 0). lia. }
  destruct (channel_value_saturating c pen imp) as [Hv Hb];
    [by rewrite HU|done|].
  rewrite HU in Hv. fold m in Hv. rewrite Hv in Hb. rewrite HU in Hb. fold m in Hb.
  split; [by rewrite Hlk, Hdi; simpl; rewrite Hcp; simpl; rewrite Hv|].
  lra.
Qed.

Lemma X2_witness :
  ∃ cr cc c1,
    calculate_channel_reach (single_channel_plan 1000000 1) = Ok ((cr, cc), c1)
    ∧ ∃ v, cr !! "A" = Some v ∧ 0 <= v <= 1 * 1000000.
Proof.
  destruct (stage1_total _ _ _ _ _ _ _ _ (single_channel_init 1000000 1))
    as ([cr cc] & c1 & H1).
  { apply single_channel_addressable. left. lra. }
  destruct (X2_reach_saturates _ _ _ _ _ _ _ _ _ _ _ "A" 1000000%Z 1
              (single_channel_init 1000000 1) H1) as (Hv & Hb).
  - apply lookup_singleton_eq.
  - apply lookup_singleton_eq.
  - lia.
  - lra.
  - exists cr, cc, c1. split; [exact H1|]. eexists. split; [exact Hv|exact Hb].
Defined.

Lemma channel_value_negative_ceiling c pen imp :
  pen * IZR (total_universe c) < 0 → channel_value c pen imp = 0.
Proof.
  intros Hm. unfold channel_value. case_decide as Hi; [|done].
  set (m := pen * IZR (total_universe c)) in *.
  assert (Himp : 0 < IZR imp) by (by apply (IZR_lt 0)).
  assert (Hq : 0 < - IZR imp / m).
  { unfold Rdiv. rewrite <- Ropp_mult_distr_l, Ropp_mult_distr_r.
    apply Rmult_lt_0_compat; [done|].
    apply Ropp_0_gt_lt_contravar. by apply Rinv_lt_0_compat. }
  pose proof (exp_increasing _ _ Hq) as Hexp. rewrite exp_0 in Hexp.
  set (e := exp (- IZR imp / m)) in *.
  assert (0 < m * (1 - e)).
  { replace (m * (1 - e)) with ((- m) * (e - 1)) by lra.
    apply Rmult_lt_0_compat; lra. }
  unfold pymax, pymin. repeat case_decide; lra.
Qed.

Lemma channel_value_mono c pen imp imp' :
  pen * IZR (total_universe c) ≠ 0 → (imp ≤ imp')%Z →
  channel_value c pen imp <= channel_value c pen imp'.
Proof.
  intros Hm Hle.
  destruct (Rlt_dec (pen * IZR (total_universe c)) 0) as [Hneg|Hnneg].
  { rewrite !channel_value_negative_ceiling by done. lra. }
  assert (Hpos : 0 < pen * IZR (total_universe c)) by lra.
  destruct (decide (0 < imp)%Z) as [Hi|Hi].
  - destruct (channel_value_saturating c pen imp Hpos Hi) as [-> _].
    destruct (channel_value_saturating c pen imp' Hpos ltac:(lia)) as [-> _].
    set (m := pen * IZR (total_universe c)) in *.
    apply Rmult_le_compat_l; [lra|].
    assert (Hq : - IZR imp' / m <= - IZR imp / m).
    { apply IZR_le in Hle. unfold Rdiv.
      apply Rmult_le_compat_r; [|lra].
      apply Rlt_le. by apply Rinv_0_lt_compat. }
    destruct Hq as [Hq|Hq].
    + apply exp_increasing in Hq. lra.
    + rewrite Hq. lra.
  - unfold channel_value at 1. rewrite decide_False by done.
    apply channel_value_nonneg.
Qed.

(** X3. Reach never decreases with impressions: for two accepted plans
    over the same universe and the same penetrations, a channel's reach
    under the plan that gives it more impressions is at least its reach
    under the other plan. *)
Theorem X3_reach_monotone_in_impressions
    U I I' mrp mrp' gof gof' di di' cp ef ef' c c' cr cc c1 cr' cc' c1'
    ch imp imp' v v' :
  init U I mrp gof di cp ef = Ok c →
  init U I' mrp' gof' di' cp ef' = Ok c' →
  calculate_channel_reach c = Ok ((cr, cc), c1) →
  calculate_channel_reach c' = Ok ((cr', cc'), c1') →
  di !! ch = Some imp → di' !! ch = Some imp' → (imp ≤ imp')%Z →
  cr !! ch = Some v → cr' !! ch = Some v' →
  v <= v'.
Proof.
  intros Hinit Hinit' H1 H1' Hdi Hdi' Hle Hv Hv'.
  destruct (stage1_entries _ _ _ _ _ _ _ _ _ _ _ Hinit H1)
    as (Hlk & _ & _ & _ & HU & _).
  destruct (stage1_entries _ _ _ _ _ _ _ _ _ _ _ Hinit' H1')
    as (Hlk' & _ & _ & Ha' & HU' & _).
  rewrite Hlk, Hdi in Hv. rewrite Hlk', Hdi' in Hv'. simpl in Hv, Hv'.
  destruct (cp !! ch) as [pen|] eqn:Hcp; [|done]. simpl in Hv, Hv'.
  injection Hv as <-. injection Hv' as <-.
  assert (Hsame : channel_value c pen imp = channel_value c' pen imp).
  { unfold channel_value. by rewrite HU, HU'. }
  rewrite Hsame.
  destruct (decide (0 < imp')%Z) as [Hi|Hi].
  - apply channel_value_mono; [|done].
    apply init_inv in Hinit' as (-> & _). by apply (Ha' ch imp' pen).
  - unfold channel_value. rewrite !decide_False by lia. lra.
Qed.

Lemma X3_witness :
  ∃ cr cc c1 cr' cc' c1' v v',
    calculate_channel_reach (single_channel_plan 10000 1) = Ok ((cr, cc), c1)
    ∧ calculate_channel_reach (single_channel_plan 1000000 1) = Ok ((cr', cc'), c1')
    ∧ cr !! "A" = Some v ∧ cr' !! "A" = Some v' ∧ v <= v'.
Proof.
  destruct (stage1_total _ _ _ _ _ _ _ _ (single_channel_init 10000 1))
    as ([cr cc] & c1 & H1).
  { apply single_channel_addressable. left. lra. }
  destruct (stage1_total _ _ _ _ _ _ _ _ (single_channel_init 1000000 1))
    as ([cr' cc'] & c1' & H1').
  { apply single_channel_addressable. left. lra. }
  destruct (stage1_entries _ _ _ _ _ _ _ _ _ _ _ (single_channel_init 10000 1) H1)
    as (Hlk & _).
  destruct (stage1_entries _ _ _ _ _ _ _ _ _ _ _ (single_channel_init 1000000 1) H1')
    as (Hlk' & _).
  specialize (Hlk "A"). specialize (Hlk' "A").
  rewrite !lookup_singleton_eq in Hlk, Hlk'. simpl in Hlk, Hlk'.
  eexists cr, cc, c1, cr', cc', c1', _, _.
  split; [exact H1|]. split; [exact H1'|]. split; [exact Hlk|]. split; [exact Hlk'|].
  eapply (X3_reach_monotone_in_impressions _ _ _ _ _ _ _ _ _ _ _ _ _ _ _ _ _ _ _ _
            "A" 10000%Z 1000000%Z _ _
            (single_channel_init 10000 1) (single_channel_init 1000000 1) H1 H1');
    [apply lookup_singleton_eq|apply lookup_singleton_eq|lia|exact Hlk|exact Hlk'].
Defined.

(** ** When a run returns *)

(** X4. On an accepted plan whose integers ([total_universe],
    [total_impressions] and every channel's impressions) convert to
    floats, the run raises [ZeroDivisionError] exactly when some channel
    with positive impressions has penetration 0, and it returns exactly
    when no counted channel with positive impressions has a zero ceiling
    [penetration * total_universe]. *)
Theorem X4_run_raises_iff_zero_ceiling U I mrp gof di cp ef c :
  init U I mrp gof di cp ef = Ok c →
  convertible_plan c →
  (run_all_calculations c = Raise ZeroDivisionError
   ↔ ∃ ch imp,
       di !! ch = Some imp ∧ cp !! ch = Some 0 ∧ (0 < imp)%Z)
  ∧ ((∃ r c', run_all_calculations c = Ok (r, c')) ↔ addressable c).
Proof.
  intros Hinit _. pose proof Hinit as Hi. apply init_inv in Hi as (-> & HU & _).
  set (c := mkCalculator _ _ _ _ _ _ _ _ _ _ _ _ _ _) in *.
  assert (Hok : addressable c → ∃ r c', run_all_calculations c = Ok (r, c'))
    by (by eapply run_all_calculations_addressable).
  assert (Hraise : ∀ e, run_all_calculations c = Raise e →
                        e = ZeroDivisionError ∧ ¬ addressable c).
  { intros e He. split.
    - destruct (channel_reach_loop c) as [[cr tot]|e1] eqn:Hloop.
      + destruct (channel_reach_loop_inv c cr tot eq_refl Hloop) as (_ & _ & Ha).
        destruct (Hok Ha) as (r & c' & Hr). congruence.
      + apply channel_reach_loop_raises in Hloop as ->; [|done].
        unfold run_all_calculations in He.
        rewrite calculate_channel_reach_fresh in He by done.
        destruct (channel_reach_loop c) as [[cr tot]|e1] eqn:Hloop; simpl in He.
        * destruct (channel_reach_loop_inv c cr tot eq_refl Hloop) as (_ & _ & Ha).
          destruct (Hok Ha) as (r & c' & Hr).
          unfold run_all_calculations in Hr.
          rewrite calculate_channel_reach_fresh, Hloop in Hr by done.
          simpl in Hr. congruence.
        * apply channel_reach_loop_raises in Hloop as ->; [|done]. congruence.
    - intros Ha. destruct (Hok Ha) as (r & c' & Hr). congruence. }
  split.
  - split.
    + intros He. destruct (Hraise _ He) as [_ Hna].
      apply Classical_Prop.NNPP. intros Hnex. apply Hna.
      intros ch imp pen Hdi Hcp Himp Hz. apply Hnex. exists ch, imp.
      simpl in Hz. apply Rmult_integral in Hz as [->|Hz]; [done|].
      apply eq_IZR_R0 in Hz. lia.
    + intros (ch & imp & Hdi & Hcp & Himp).
      destruct (run_all_calculations c) as [[r c']|e] eqn:Hrun.
      * exfalso.
        destruct (run_fresh_inv _ _ _ _ _ _ _ _ _ _ Hinit Hrun)
          as (cr & tot & Hloop & _).
        destruct (channel_reach_loop_inv c cr tot eq_refl Hloop) as (_ & _ & Ha).
        apply (Ha ch imp 0); [done..|]. simpl. lra.
      * by destruct (Hraise e eq_refl) as [-> _].
  - split; [|done]. intros (r & c' & Hrun).
    destruct (run_fresh_inv _ _ _ _ _ _ _ _ _ _ Hinit Hrun)
      as (cr & tot & Hloop & _).
    by destruct (channel_reach_loop_inv c cr tot eq_refl Hloop) as (_ & _ & Ha).
Qed.

Lemma X4_witness :
  run_all_calculations (single_channel_plan 10000 0) = Raise ZeroDivisionError
  ∧ ∃ r c', run_all_calculations (single_channel_plan 1000000 1) = Ok (r, c').
Proof.
  split.
  - destruct (X4_run_raises_iff_zero_ceiling _ _ _ _ _ _ _ _
                (single_channel_init 10000 0)) as ([_ Hraise] & _).
    + split; [reflexivity|]. split; [reflexivity|].
      apply map_Forall_singleton. reflexivity.
    + apply Hraise. exists "A", 10000%Z.
      split; [apply lookup_singleton_eq|]. split; [apply lookup_singleton_eq|lia].
  - destruct (X4_run_raises_iff_zero_ceiling _ _ _ _ _ _ _ _
                (single_channel_init 1000000 1)) as (_ & [_ Hok]).
    + split; [reflexivity|]. split; [reflexivity|].
      apply map_Forall_singleton. reflexivity.
    + apply Hok. apply single_channel_addressable. left. lra.
Defined.

(** A returned run whose channel reaches sum to 0 reports zeros. *)
Lemma run_zero_raw U I mrp gof di cp ef c r c' :
  init U I mrp gof di cp ef = Ok c →
  run_all_calculations c = Ok (r, c') →
  pysum (channel_reach c') = 0 →
  Results.raw_reach_percent r = 0
  ∧ Results.final_reach r = 0 ∧ Results.final_reach_percent r = 0
  ∧ Results.average_frequency r = 0 ∧ Results.effective_reach r = ∅.
Proof.
  intros Hinit Hrun Hz.
  pose proof Hinit as Hi. apply init_inv in Hi as (-> & _).
  set (c := mkCalculator _ _ _ _ _ _ _ _ _ _ _ _ _ _) in *.
  destruct (run_fresh_inv _ _ _ _ _ _ _ _ _ _ Hinit Hrun)
    as (cr & tot & Hloop & Htot & Hnn & HU & Hm & Hcr & Hraw & _ & Hcap & Haf
        & Her & _ & _ & Hrp & _ & Hrf & Hfp & Hra & Hre).
  rewrite Hcr in Hz.
  assert (Hfr : final_reach c' = 0).
  { apply run_all_calculations_inv in Hrun
      as (r1 & c1 & r2 & c2 & r3 & c3 & r4 & H1 & H2 & H3 & H4 & _ & _).
    apply stage1_fresh_inv in H1 as (cr' & tot' & Hloop' & _ & _ & _ & ->); [|done..].
    rewrite Hloop in Hloop'. injection Hloop' as <- <-.
    pose proof (calculate_total_reach_zero _ _ _ H2) as Hzero. simpl in Hzero.
    assert (0 <= mrp / 100 * IZR U).
    { assert (HU' : 0 <= IZR U) by (apply (IZR_le 0); lia).
      apply Rmult_le_pos; lra. }
    specialize (Hzero Hz ltac:(done)).
    apply stage2_inv in H2 as ->. apply stage3_inv in H3 as [-> _].
    apply stage4_inv in H4 as [[_ ->]|(_ & _ & -> & _)]; simpl; done. }
  rewrite Hrp, Hrf, Hfp, Hra, Hre, Haf, Hfr, Hz.
  rewrite decide_True by lra. rewrite Her by lra.
  unfold Rdiv. rewrite !Rmult_0_l. done.
Qed.

(** X5. When no channel of [distributed_impressions] has a penetration
    entry (in particular when there are no channels at all), the run on
    an accepted plan returns: the contributions and the ladder are empty
    and every number of the result record is 0. *)
Theorem X5_no_counted_channel U I mrp gof di cp ef c :
  init U I mrp gof di cp ef = Ok c →
  (∀ ch, is_Some (di !! ch) → cp !! ch = None) →
  ∃ r c',
    run_all_calculations c = Ok (r, c')
    ∧ channel_reach c' = ∅
    ∧ r = Results.mk ∅ 0 0 0 0 0 ∅.
Proof.
  intros Hinit Hnone.
  pose proof Hinit as Hi. apply init_inv in Hi as (-> & _).
  set (c := mkCalculator _ _ _ _ _ _ _ _ _ _ _ _ _ _) in *.
  destruct (run_all_calculations_addressable _ _ _ _ _ _ _ _ Hinit) as (r & c' & Hrun).
  { intros ch imp pen Hdi Hcp _. simpl in *.
    rewrite Hnone in Hcp by eauto. done. }
  exists r, c'. split; [done|].
  destruct (run_fresh_inv _ _ _ _ _ _ _ _ _ _ Hinit Hrun)
    as (cr & tot & Hloop & Htot & _ & _ & _ & Hcr & _ & Hov & _ & _
        & _ & _ & Hcc & _ & Hop & _).
  destruct (channel_reach_loop_inv c cr tot eq_refl Hloop) as (_ & Hlk & _).
  assert (Hempty : cr = ∅).
  { apply map_empty. intros ch. rewrite Hlk. simpl.
    destruct (di !! ch) as [imp|] eqn:Hdi; [|done]. simpl.
    rewrite Hnone by eauto. done. }
  rewrite Hempty in Hcr, Hcc. split; [exact Hcr|].
  destruct (run_zero_raw _ _ _ _ _ _ _ _ _ _ Hinit Hrun)
    as (Hrp & Hrf & Hfp & Hra & Hre).
  { rewrite Hcr. apply pysum_empty. }
  destruct r as [rcc rrp rop rfr rfp raf rer]. simpl in *.
  rewrite Hov in Hop. subst.
  f_equal.
  - case_decide; apply fmap_empty.
  - unfold Rdiv. by rewrite !Rmult_0_l.
Qed.

Lemma X5_witness :
  ∃ r c',
    run_all_calculations
      (mkCalculator 1000000 1000000 90 0.5 {["A" := 1000000%Z]} ∅ ∅ ∅ ∅ 0 0 0 0 ∅)
    = Ok (r, c')
    ∧ r = Results.mk ∅ 0 0 0 0 0 ∅.
Proof.
  destruct (X5_no_counted_channel 1000000 1000000 90 0.5 {["A" := 1000000%Z]} ∅ ∅
              (mkCalculator 1000000 1000000 90 0.5 {["A" := 1000000%Z]} ∅ ∅
                 ∅ ∅ 0 0 0 0 ∅))
    as (r & c' & Hrun & _ & Hr).
  - apply init_Ok; lia || lra.
  - intros ch _. apply lookup_empty.
  - exists r, c'. split; [exact Hrun|exact Hr].
Defined.

(** ** Further properties of the Total Reach Stage *)





(** ** Running the stages again on the same object *)

Lemma first_loop_from c (cr0 : gmap string R) (m : gmap string Z) :
  map_fold (channel_reach_step c) (Ok (cr0, 0)) m
  = '(cr, tot) ← first_loop c m; Ok (cr ∪ cr0, tot).
Proof.
  induction m as [|i x m Hi Hfirst IH] using map_first_key_ind.
  - unfold first_loop. rewrite !map_fold_empty. simpl.
    by rewrite (left_id_L ∅ (∪)).
  - unfold first_loop in *. rewrite !map_fold_insert_first_key by done.
    rewrite IH.
    destruct (map_fold (channel_reach_step c) (Ok (∅, 0)) m) as [[cr tot]|e];
      [|done].
    cbn -[channel_reach_step]. rewrite !channel_reach_step_Ok.
    destruct (channel_penetration c !! i) as [pen|]; [|done].
    repeat case_decide; simpl; try done; by rewrite insert_union_l.
Qed.

Lemma contribution_fold_positive_from (tot : R) (cc0 m : gmap string R) :
  tot ≠ 0 →
  map_fold (contribution_step tot) (Ok cc0) m
  = Ok (((λ r, r / tot * 100) <$> m) ∪ cc0).
Proof.
  intros Htot. induction m as [|i x m Hi Hfirst IH] using map_first_key_ind.
  - by rewrite map_fold_empty, fmap_empty, (left_id_L ∅ (∪)).
  - rewrite map_fold_insert_first_key, IH by done.
    unfold contribution_step. simpl. rewrite pydiv_Ok by done. simpl.
    by rewrite fmap_insert, insert_union_l.
Qed.

Lemma contribution_fold_zero_from (cc0 m : gmap string R) :
  map_fold (λ channel (_ : R) contributions, <[channel := 0]> contributions) cc0 m
  = ((λ _, 0) <$> m) ∪ cc0.
Proof.
  induction m as [|i x m Hi Hfirst IH] using map_first_key_ind.
  - by rewrite map_fold_empty, fmap_empty, (left_id_L ∅ (∪)).
  - rewrite map_fold_insert_first_key, IH by done.
    by rewrite fmap_insert, insert_union_l.
Qed.

(** The Channel Reach Stage on an object that already holds its own
    output. *)
Lemma calculate_channel_reach_again s cr tot :
  first_loop s (distributed_impressions s) = Ok (cr, tot) →
  channel_reach s = cr →
  channel_contributions s
  = (if decide (0 < tot) then (λ r, r / tot * 100) <$> cr else (λ _, 0) <$> cr) →
  calculate_channel_reach s = Ok ((cr, channel_contributions s), s).
Proof.
  intros Hloop Hcr Hcc. unfold calculate_channel_reach, channel_reach_loop.
  rewrite Hcr, first_loop_from, Hloop. simpl.
  rewrite (idemp_L (∪) cr).
  unfold contributions_loop. rewrite Hcc. case_decide.
  - rewrite contribution_fold_positive_from by lra. simpl.
    rewrite (idemp_L (∪)). destruct s. simpl in *. by subst.
  - rewrite contribution_fold_zero_from. simpl.
    rewrite (idemp_L (∪)). destruct s. simpl in *. by subst.
Qed.

Lemma calculate_total_reach_agree s s' fr st :
  channel_reach s' = channel_reach s →
  global_overlap_factor s' = global_overlap_factor s →
  efficiency_factors s' = efficiency_factors s →
  max_reach_percent s' = max_reach_percent s →
  total_universe s' = total_universe s →
  calculate_total_reach s = Ok (fr, st) →
  calculate_total_reach s'
  = Ok (fr, set_final_reach fr (set_raw_total_reach (raw_total_reach st) s')).
Proof.
  intros Hcr Hg He Hm HU H. pose proof (stage2_inv _ _ _ H) as ->. simpl.
  revert H. unfold calculate_total_reach, efficiency_sum.
  rewrite Hcr, Hg, He, Hm, HU.
  case_decide as Hempty.
  - intros [= <- _]. by rewrite Hempty, pysum_empty.
  - destruct (if decide (0 < pysum (channel_reach s)) then _ else _) as [we|e];
      simpl; [|done].
    by intros [= <- _].
Qed.

Lemma calculate_frequency_agree s s' :
  final_reach s' = final_reach s →
  total_impressions s' = total_impressions s →
  calculate_frequency s'
  = '(af, _) ← calculate_frequency s; Ok (af, set_average_frequency af s').
Proof.
  intros Hf HI. rewrite !calculate_frequency_Ok. cbv zeta. simpl.
  by rewrite Hf, HI.
Qed.

Lemma calculate_effective_reach_agree s s' max_frequency ret st :
  final_reach s' = final_reach s →
  average_frequency s' = average_frequency s →
  total_universe s' = total_universe s →
  max_reach_percent s' = max_reach_percent s →
  calculate_effective_reach s max_frequency = Ok (ret, st) →
  calculate_effective_reach s' max_frequency
  = Ok (ret,
        if decide (final_reach s <= 0 ∨ average_frequency s <= 0) then s'
        else set_effective_reach ret s').
Proof.
  intros Hf Ha HU Hm. unfold calculate_effective_reach, effective_reach_step.
  rewrite Hf, Ha, HU, Hm. case_decide.
  - by intros [= <- _].
  - destruct (pydiv (final_reach s) _) as [q|e]; [|done]. simpl.
    destruct (pydiv 1 _) as [x|e]; [|done]. simpl.
    by intros [= <- _].
Qed.

(** X7. A calculator can be run again: after a run on an accepted plan
    has returned, a second [run_all_calculations] on the same object
    returns the same result record and leaves the object as it is. *)
Theorem X7_run_again_same_result U I mrp gof di cp ef c r c' :
  init U I mrp gof di cp ef = Ok c →
  run_all_calculations c = Ok (r, c') →
  run_all_calculations c' = Ok (r, c').
Proof.
  intros Hinit Hrun.
  apply run_all_calculations_inv in Hrun
    as (r1 & c1 & r2 & c2 & r3 & c3 & r4 & H1 & H2 & H3 & H4 & HU' & ->).
  apply init_inv in Hinit as (-> & HU & _).
  set (c := mkCalculator _ _ _ _ _ _ _ _ _ _ _ _ _ _) in *.
  apply stage1_fresh_inv in H1 as (cr & tot & Hloop & Htot & _ & _ & Hc1); [|done..].
  pose proof (stage2_inv _ _ _ H2) as Hc2.
  pose proof (stage3_inv _ _ _ H3) as [Hc3 _].
  assert (Hloop' : first_loop c' (distributed_impressions c') = Ok (cr, tot)).
  { apply stage4_inv in H4 as [[_ ->]|(_ & _ & -> & _)];
      subst c3 c2 c1; exact Hloop. }
  assert (Hs1 : calculate_channel_reach c' = Ok ((cr, channel_contributions c'), c')).
  { apply (calculate_channel_reach_again c' cr tot Hloop');
      apply stage4_inv in H4 as [[_ ->]|(_ & _ & -> & _)]; by subst c3 c2 c1. }
  assert (Hs2 : calculate_total_reach c' = Ok (r2, c')).
  { rewrite (calculate_total_reach_agree c1 c' r2 c2) by
      (try exact H2;
       apply stage4_inv in H4 as [[_ ->]|(_ & _ & -> & _)]; by subst c3 c2).
    do 2 f_equal.
    apply stage4_inv in H4 as [[_ ->]|(_ & _ & -> & _)]; by subst c3 c2 c1. }
  assert (Hs3 : calculate_frequency c' = Ok (r3, c')).
  { rewrite (calculate_frequency_agree c2 c') by
      (apply stage4_inv in H4 as [[_ ->]|(_ & _ & -> & _)]; by subst c3).
    rewrite H3. simpl. do 2 f_equal.
    apply stage4_inv in H4 as [[_ ->]|(_ & _ & -> & _)]; by subst c3 c2 c1. }
  assert (Hs4 : calculate_effective_reach c' 6 = Ok (r4, c')).
  { rewrite (calculate_effective_reach_agree c3 c' 6 r4 c') by
      (try exact H4;
       apply stage4_inv in H4 as [[_ ->]|(_ & _ & -> & _)]; done).
    do 2 f_equal.
    apply stage4_inv in H4 as [[Hd ->]|(Hf & Ha & -> & _)].
    - by rewrite decide_True.
    - rewrite decide_False by lra. by subst c3 c2 c1. }
  unfold run_all_calculations. rewrite Hs1. simpl. rewrite Hs2. simpl.
  rewrite Hs3. simpl. rewrite Hs4. simpl.
  assert (HUR : IZR (total_universe c') ≠ 0).
  { intros Hz. by apply eq_IZR_R0 in Hz. }
  rewrite !pydiv_Ok by done. done.
Qed.

Lemma X7_witness :
  ∃ r c',
    run_all_calculations (single_channel_plan 1000000 1) = Ok (r, c')
    ∧ run_all_calculations c' = Ok (r, c').
Proof.
  destruct (run_all_calculations_addressable _ _ _ _ _ _ _ _
              (single_channel_init 1000000 1)) as (r & c' & Hrun).
  { apply single_channel_addressable. left. lra. }
  exists r, c'. split; [exact Hrun|].
  exact (X7_run_again_same_result _ _ _ _ _ _ _ _ _ _
           (single_channel_init 1000000 1) Hrun).
Defined.

(** ** Further properties of the Effective Reach Stage *)

Lemma ladder_fold_dom c x (l : list Z) er0 cur0 :
  dom (foldl (effective_reach_step c x) (er0, cur0) l).1
  = list_to_set (threshold_key <$> l) ∪ dom er0.
Proof.
  revert er0 cur0. induction l as [|i l IH]; intros er0 cur0.
  - simpl. by rewrite (left_id_L ∅ (∪)).
  - cbn [foldl fmap list_fmap].
    destruct (effective_reach_step c x (er0, cur0) i) as [er1 cur1] eqn:E.
    rewrite IH. unfold effective_reach_step in E. injection E as <- _.
    simpl. rewrite dom_insert_L, (assoc_L (∪)).
    by rewrite (comm_L (∪) (list_to_set _) {[_]}).
Qed.

Lemma zero_ladder_dom (l : list Z) (d0 : gmap string R) :
  dom (foldl (λ d i, <[threshold_key i := 0]> d) d0 l)
  = list_to_set (threshold_key <$> l) ∪ dom d0.
Proof.
  revert d0. induction l as [|i l IH]; intros d0; simpl.
  - by rewrite (left_id_L ∅ (∪)).
  - rewrite IH, dom_insert_L, (assoc_L (∪)).
    by rewrite (comm_L (∪) (list_to_set _) {[_]}).
Qed.

Lemma zero_ladder_values (l : list Z) (d0 : gmap string R) :
  map_Forall (λ _ v, v = 0) d0 →
  map_Forall (λ _ v, v = 0) (foldl (λ d i, <[threshold_key i := 0]> d) d0 l).
Proof.
  revert d0. induction l as [|i l IH]; intros d0 H0; simpl; [done|].
  apply IH. by apply map_Forall_insert_2.
Qed.

Lemma effective_reach_keys c max_frequency ret c4 :
  calculate_effective_reach c max_frequency = Ok (ret, c4) →
  ∀ s, is_Some (ret !! s) ↔ ∃ k, (2 ≤ k ≤ max_frequency)%Z ∧ s = threshold_key k.
Proof.
  intros H s.
  assert (Hdom : dom ret
                 = list_to_set (threshold_key <$> range 2 (max_frequency + 1))).
  { revert H. unfold calculate_effective_reach. case_decide.
    - intros [= <- _]. by rewrite zero_ladder_dom, dom_empty_L, (right_id_L ∅ (∪)).
    - destruct (pydiv (final_reach c) _) as [q|e]; [|done]. simpl.
      destruct (pydiv 1 _) as [x|e]; [|done]. simpl.
      intros [= <- _]. by rewrite ladder_fold_dom, dom_empty_L, (right_id_L ∅ (∪)). }
  rewrite <- elem_of_dom, Hdom, elem_of_list_to_set, list_elem_of_fmap.
  unfold range. split.
  - intros (k & -> & Hk). apply elem_of_seqZ in Hk. exists k. split; [lia|done].
  - intros (k & Hk & ->). exists k. split; [done|]. apply elem_of_seqZ. lia.
Qed.

(** X8. Whenever the Effective Reach Stage returns, the returned ladder
    has exactly the keys ["k+"] for [2 <= k <= max_frequency] (none when
    [max_frequency < 2]).  In the degenerate branch every returned value
    is 0 and the object, including its stored ladder, is left untouched;
    otherwise the returned ladder replaces the stored one. *)
Theorem X8_ladder_keys c max_frequency ret c4 :
  calculate_effective_reach c max_frequency = Ok (ret, c4) →
  (∀ s, is_Some (ret !! s) ↔ ∃ k, (2 ≤ k ≤ max_frequency)%Z ∧ s = threshold_key k)
  ∧ ((max_frequency < 2)%Z → ret = ∅)
  ∧ (final_reach c <= 0 ∨ average_frequency c <= 0 →
     c4 = c ∧ map_Forall (λ _ v, v = 0) ret)
  ∧ (0 < final_reach c ∧ 0 < average_frequency c →
     c4 = set_effective_reach ret c).
Proof.
  intros H. pose proof (effective_reach_keys _ _ _ _ H) as Hkeys.
  split; [done|]. split; [|split].
  - intros Hmf. apply map_empty. intros s. apply eq_None_not_Some.
    rewrite Hkeys. intros (k & Hk & _). lia.
  - intros Hd. revert H. unfold calculate_effective_reach.
    rewrite decide_True by done. intros [= <- <-]. split; [done|].
    by apply zero_ladder_values.
  - intros [Hf Ha]. apply stage4_inv in H as [[Hd _]|(_ & _ & -> & _)]; [lra|done].
Qed.

Lemma X8_witness :
  ∃ ret c4,
    calculate_effective_reach (reached_state 500000 2) 6 = Ok (ret, c4)
    ∧ is_Some (ret !! "6+") ∧ ret !! "7+" = None
    ∧ c4 = set_effective_reach ret (reached_state 500000 2).
Proof.
  destruct (calculate_effective_reach_positive (reached_state 500000 2) 6)
    as (ladder & H & _); [simpl; lia|simpl; lra|simpl; lra|].
  destruct (X8_ladder_keys _ _ _ _ H) as (Hkeys & _ & _ & Hpos).
  exists ladder, (set_effective_reach ladder (reached_state 500000 2)).
  split; [exact H|]. split; [|split].
  - apply Hkeys. exists 6%Z. split; [lia|reflexivity].
  - apply eq_None_not_Some. rewrite Hkeys. intros (k & Hk & Heq).
    change "7+" with (threshold_key 7) in Heq.
    apply threshold_key_inj in Heq. lia.
  - reflexivity.
Defined.

(** X9. In the result of a run on an accepted plan every effective-reach
    value lies between 0 and [final_reach_percent]; and when
    [total_impressions <= final_reach] (average frequency clamped up to
    1) every effective-reach value is 0. *)
Theorem X9_ladder_below_reach U I mrp gof di cp ef c r c' :
  init U I mrp gof di cp ef = Ok c →
  run_all_calculations c = Ok (r, c') →
  (∀ s v, Results.effective_reach r !! s = Some v →
          0 <= v <= Results.final_reach_percent r)
  ∧ (IZR I <= Results.final_reach r →
     ∀ s v, Results.effective_reach r !! s = Some v → v = 0).
Proof.
  intros Hinit Hrun.
  destruct (run_fresh_inv _ _ _ _ _ _ _ _ _ _ Hinit Hrun)
    as (cr & tot & _ & _ & _ & HU & Hm & _ & _ & _ & Hcap & Haf & Her & _
        & _ & _ & _ & Hrf & Hfp & _ & Hre).
  apply run_all_calculations_inv in Hrun
    as (r1 & c1 & r2 & c2 & r3 & c3 & r4 & H1 & H2 & H3 & H4 & _ & _).
  destruct (pipeline_inv _ _ _ _ _ _ _ _ _ _ _ _ _ _ Hinit H1 H2 H3)
    as (HU3 & Hm3 & _ & _ & _ & _ & _ & _ & Her3).
  pose proof (percent_of_cap (final_reach c') mrp U ltac:(lia) Hcap) as Hpc.
  rewrite Hre, Hfp, Hrf.
  pose proof (effective_reach_keys _ _ _ _ H4) as Hkeys.
  pose proof H4 as H4'.
  apply stage4_inv in H4' as [[Hd ->]|(Hf & Ha & -> & _)].
  { rewrite Her3. split; [intros s v Hs|intros _ s v Hs]; by rewrite lookup_empty in Hs. }
  simpl in *.
  destruct (calculate_effective_reach_positive c3 6) as (ladder & Hrun4 & Hlk);
    [rewrite HU3; lia|done..|].
  rewrite Hrun4 in H4. injection H4 as <-.
  rewrite HU3, Hm3 in Hlk.
  pose proof (decay_rate_bounds (average_frequency c3)) as Hx.
  set (x := 1 / pymax 1 (average_frequency c3)) in *.
  set (rp := final_reach c3 / IZR U * 100) in *.
  assert (Hval : ∀ s v, ladder !! s = Some v →
            ∃ n : nat, (1 ≤ n)%nat ∧ v = clamp (rp * (1 - x) ^ n) 0 mrp).
  { intros s v Hs. destruct (proj1 (Hkeys s)) as (k & Hk & ->); [eauto|].
    rewrite Hlk in Hs by done. injection Hs as <-.
    exists (Z.to_nat (k - 1)). split; [lia|]. apply clamp_python. }
  split.
  - intros s v Hs. destruct (Hval s v Hs) as (n & _ & ->).
    pose proof (pow_unit_interval (1 - x) n ltac:(lra)) as Hp.
    set (p := (1 - x) ^ n) in *.
    assert (0 <= rp * p <= rp).
    { split; [apply Rmult_le_pos; lra|].
      rewrite <- (Rmult_1_r rp) at 2. apply Rmult_le_compat_l; lra. }
    rewrite clamp_inactive by lra. done.
  - intros HI s v Hs. destruct (Hval s v Hs) as (n & Hn & ->).
    assert (Haf1 : average_frequency c3 = 1).
    { rewrite Haf. rewrite decide_False by lra.
      assert (Hq : IZR I / final_reach c3 <= 1).
      { apply Rmult_le_reg_r with (final_reach c3); [done|].
        unfold Rdiv. rewrite Rmult_assoc, Rinv_l by lra. lra. }
      unfold pymin, pymax. repeat case_decide; lra. }
    assert (Hx1 : x = 1).
    { subst x. rewrite Haf1. unfold pymax. rewrite decide_False by lra. lra. }
    rewrite Hx1. replace (1 - 1) with 0 by lra.
    rewrite pow_i by lia. rewrite Rmult_0_r.
    apply clamp_inactive. lra.
Qed.

Lemma X9_witness :
  ∃ r c',
    run_all_calculations (single_channel_plan 1000000 1) = Ok (r, c')
    ∧ ∃ v, Results.effective_reach r !! "2+" = Some v
           ∧ 0 <= v <= Results.final_reach_percent r.
Proof.
  destruct (run_all_calculations_addressable _ _ _ _ _ _ _ _
              (single_channel_init 1000000 1)) as (r & c' & Hrun).
  { apply single_channel_addressable. left. lra. }
  exists r, c'. split; [exact Hrun|].
  destruct (X9_ladder_below_reach _ _ _ _ _ _ _ _ _ _
              (single_channel_init 1000000 1) Hrun) as [Hbound _].
  assert (Hsome : is_Some (Results.effective_reach r !! "2+")).
  { apply run_all_calculations_inv in Hrun
      as (r1 & c1 & r2 & c2 & r3 & c3 & r4 & H1 & H2 & H3 & H4 & _ & ->).
    simpl.
    destruct single_channel_pipeline
      as (r1' & c1' & r2' & c2' & r3' & c3' & H1' & H2' & H3' & Hf & Ha).
    rewrite H1 in H1'. injection H1' as <- <-.
    rewrite H2 in H2'. injection H2' as <- <-.
    rewrite H3 in H3'. injection H3' as <- <-.
    pose proof (effective_reach_keys _ _ _ _ H4) as Hkeys.
    apply stage4_inv in H4 as [[Hd _]|(_ & _ & -> & _)]; [lra|].
    simpl. apply Hkeys. exists 2%Z. split; [lia|reflexivity]. }
  destruct Hsome as [v Hv]. exists v. split; [exact Hv|]. exact (Hbound _ _ Hv).
Defined.

(** ** A bound on the raw reach *)





(** ** The caller in [streamlit-gui.py] *)

Lemma gui_penetration_positive ch pen :
  gui_channel_penetration !! ch = Some pen → 0 < pen.
Proof.
  unfold gui_channel_penetration. simpl. intros H.
  repeat (apply lookup_insert_Some in H as [[_ <-]|[_ H]]; [lra|]).
  by rewrite lookup_empty in H.
Qed.

(** X11. The calculation the GUI starts returns a result exactly when the
    four scalar inputs pass the constructor's bounds, whatever the
    impressions table holds; otherwise it raises the constructor's
    [ValueError].  With the GUI's penetration table no run divides by
    zero.  The initial widget values (universe 1, impressions 1, both
    floats 0.0) are rejected. *)
Theorem X11_gui_never_divides_by_zero :
  (∀ U I mrp gof di,
     (∃ r, gui_calculate U I mrp gof di = Ok r)
     ↔ ((1000000 ≤ U)%Z ∧ (10000 ≤ I)%Z
        ∧ 0 <= mrp <= 99.8 ∧ 0.35 <= gof <= 0.6))
  ∧ (∀ U I mrp gof di e,
       gui_calculate U I mrp gof di = Raise e → ∃ msg, e = ValueError msg)
  ∧ (∀ di, gui_calculate 1 1 0 0 di
           = Raise (ValueError "Total universe must be at least 1,000,000")).
Proof.
  assert (Hrun : ∀ U I mrp gof di c,
            init U I mrp gof di gui_channel_penetration gui_efficiency_factors
            = Ok c →
            ∃ r c', run_all_calculations c = Ok (r, c')).
  { intros U I mrp gof di c Hinit.
    eapply run_all_calculations_addressable; [exact Hinit|].
    pose proof Hinit as Hi. apply init_inv in Hi as (-> & HU & _).
    intros ch imp pen _ Hpen _. simpl in *.
    apply gui_penetration_positive in Hpen.
    assert (0 < IZR U) by (apply (IZR_lt 0); lia).
    assert (0 < pen * IZR U) by (by apply Rmult_lt_0_compat). lra. }
  split; [|split].
  - intros U I mrp gof di. unfold gui_calculate. split.
    + intros [r Hr].
      destruct (init U I mrp gof di _ _) as [c|e] eqn:Hinit; [|done].
      apply init_inv in Hinit as (_ & HU & HI & Hm & Hg). done.
    + intros (HU & HI & Hm & Hg).
      rewrite (init_Ok U I mrp gof di _ _ HU HI Hm Hg). simpl.
      destruct (Hrun U I mrp gof di _ (init_Ok U I mrp gof di _ _ HU HI Hm Hg))
        as (r & c' & ->).
      simpl. eauto.
  - intros U I mrp gof di e. unfold gui_calculate.
    destruct (init U I mrp gof di _ _) as [c|e1] eqn:Hinit; simpl.
    + destruct (Hrun _ _ _ _ _ _ Hinit) as (r & c' & ->). done.
    + intros [= <-]. revert Hinit. unfold init.
      repeat case_decide; intros Hc; inversion Hc; eauto.
  - intros di. unfold gui_calculate, init. by rewrite decide_True by lia.
Qed.

Lemma X11_witness :
  (∃ r, gui_calculate 1000000 10000 90 0.5 {["CTV" := 500000%Z]} = Ok r)
  ∧ ∃ msg, gui_calculate 1 1 0 0 ∅ = Raise (ValueError msg).
Proof.
  destruct X11_gui_never_divides_by_zero as (Hiff & Hraise & Hdefault).
  split.
  - apply Hiff. split; [lia|]. split; [lia|]. split; lra.
  - eexists. apply Hdefault.
Defined.

(** ** The class of [reach-frequency-calculator.py] *)

Lemma legacy_div_Ok a b :
  Legacy.val b ≠ 0 →
  Legacy.div a b
  = Legacy.Ok (Legacy.Num (Legacy.val a / Legacy.val b)
                 (Legacy.numpy a || Legacy.numpy b)).
Proof. intros Hb. unfold Legacy.div. by rewrite decide_False. Qed.

Lemma legacy_div_py_zero a :
  Legacy.div (Legacy.py a) (Legacy.py 0) = Legacy.Raise Legacy.ZeroDivisionError.
Proof. unfold Legacy.div. by rewrite decide_True. Qed.

Lemma legacy_div_inv a b q :
  Legacy.div a b = Legacy.Ok q →
  Legacy.val b ≠ 0 ∧ Legacy.val q = Legacy.val a / Legacy.val b.
Proof.
  unfold Legacy.div. case_decide.
  - by destruct (_ || _).
  - by intros [= <-].
Qed.

Lemma legacy_step_Ok c ch imp cr :
  Legacy.channel_reach_step c ch imp (Legacy.Ok cr) =
    match Legacy.channel_penetration c !! ch with
    | Some pen =>
        if decide (Legacy.total_universe c = 0%Z)
        then Legacy.Raise Legacy.ZeroDivisionError
        else Legacy.Ok
               (<[ch := pen * IZR (Legacy.total_universe c)
                        * (1 - exp (- IZR imp / IZR (Legacy.total_universe c)))]> cr)
    | None => Legacy.Ok cr
    end.
Proof.
  unfold Legacy.channel_reach_step. simpl.
  destruct (Legacy.channel_penetration c !! ch) as [pen|]; [|done].
  unfold Legacy.div. simpl. case_decide as HU.
  - apply eq_IZR_R0 in HU. by rewrite decide_True.
  - rewrite decide_False; [done|]. intros Hz. apply HU. by rewrite Hz.
Qed.

Lemma legacy_first_loop c (m : gmap string Z) :
  Legacy.total_universe c ≠ 0%Z →
  map_fold (Legacy.channel_reach_step c) (Legacy.Ok ∅) m
  = Legacy.Ok (Legacy.reaches_of c m).
Proof.
  intros HU. unfold Legacy.reaches_of.
  induction m as [|i x m Hi Hfirst IH] using map_first_key_ind.
  - by rewrite map_fold_empty, map_imap_empty.
  - rewrite map_fold_insert_first_key, IH by done.
    rewrite legacy_step_Ok, map_imap_insert.
    destruct (Legacy.channel_penetration c !! i) as [pen|]; simpl.
    + by rewrite decide_False.
    + rewrite delete_id; [done|]. by rewrite map_lookup_imap, Hi.
Qed.

Lemma legacy_first_loop_uncounted c (m : gmap string Z) :
  (∀ ch, is_Some (m !! ch) → Legacy.channel_penetration c !! ch = None) →
  map_fold (Legacy.channel_reach_step c) (Legacy.Ok ∅) m = Legacy.Ok ∅.
Proof.
  induction m as [|i x m Hi Hfirst IH] using map_first_key_ind; intros Hnone.
  - by rewrite map_fold_empty.
  - rewrite map_fold_insert_first_key by done. rewrite IH.
    + rewrite legacy_step_Ok, Hnone; [done|]. rewrite lookup_insert_eq. eauto.
    + intros ch Hch. apply Hnone. rewrite lookup_insert_ne; [done|].
      intros <-. rewrite Hi in Hch. by destruct Hch.
Qed.

Lemma legacy_first_loop_outcomes c (m : gmap string Z) :
  (∃ cr, map_fold (Legacy.channel_reach_step c) (Legacy.Ok ∅) m = Legacy.Ok cr)
  ∨ map_fold (Legacy.channel_reach_step c) (Legacy.Ok ∅) m
    = Legacy.Raise Legacy.ZeroDivisionError.
Proof.
  induction m as [|i x m Hi Hfirst IH] using map_first_key_ind.
  - left. rewrite map_fold_empty. eauto.
  - rewrite map_fold_insert_first_key by done.
    destruct IH as [[cr ->]| ->]; [|by right].
    rewrite legacy_step_Ok.
    destruct (Legacy.channel_penetration c !! i); [|eauto].
    case_decide; eauto.
Qed.

Lemma legacy_first_loop_zero_universe c (m : gmap string Z) :
  Legacy.total_universe c = 0%Z →
  (∃ ch, is_Some (m !! ch) ∧ is_Some (Legacy.channel_penetration c !! ch)) →
  map_fold (Legacy.channel_reach_step c) (Legacy.Ok ∅) m
  = Legacy.Raise Legacy.ZeroDivisionError.
Proof.
  intros HU.
  induction m as [|i x m Hi Hfirst IH] using map_first_key_ind;
    intros (ch & Hm & Hp).
  - rewrite lookup_empty in Hm. by destruct Hm.
  - rewrite map_fold_insert_first_key by done.
    destruct (decide (i = ch)) as [->|Hne].
    + destruct (legacy_first_loop_outcomes c m) as [[cr ->]| ->]; [|done].
      rewrite legacy_step_Ok. destruct Hp as [pen ->]. by rewrite decide_True.
    + rewrite IH; [done|]. exists ch. split; [|done].
      by rewrite lookup_insert_ne in Hm.
Qed.

Lemma legacy_contribution_fold raw (m : gmap string R) :
  Legacy.val raw ≠ 0 →
  map_fold (Legacy.contribution_step raw) (Legacy.Ok ∅) m
  = Legacy.Ok ((λ r, r / Legacy.val raw * 100) <$> m).
Proof.
  intros Hraw. induction m as [|i x m Hi Hfirst IH] using map_first_key_ind.
  - by rewrite map_fold_empty, fmap_empty.
  - rewrite map_fold_insert_first_key, IH by done.
    unfold Legacy.contribution_step. simpl. rewrite legacy_div_Ok by done.
    simpl. by rewrite fmap_insert.
Qed.

Lemma legacy_contribution_fold_nonfinite (m : gmap string R) :
  m ≠ ∅ →
  map_fold (Legacy.contribution_step (Legacy.np 0)) (Legacy.Ok ∅) m
  = Legacy.NonFinite.
Proof.
  induction m as [|i x m Hi Hfirst IH] using map_first_key_ind; [done|].
  intros _. rewrite map_fold_insert_first_key by done.
  destruct (decide (m = ∅)) as [->|Hne].
  - rewrite map_fold_empty. unfold Legacy.contribution_step, Legacy.div. simpl.
    by rewrite decide_True.
  - by rewrite IH.
Qed.

(** The Channel Reach Stage of the earlier class on a fresh object. *)
Lemma legacy_stage1_fresh U I mrp gof di cp ef :
  let c := Legacy.init U I mrp gof di cp ef in
  let cr := Legacy.reaches_of c di in
  U ≠ 0%Z →
  Legacy.calculate_channel_reach c
  = if decide (cr = ∅) then
      Legacy.Ok ((∅, ∅),
                 Legacy.set_channel_contributions ∅
                   (Legacy.set_raw_total_reach (Legacy.py 0)
                      (Legacy.set_channel_reach ∅ c)))
    else if decide (pysum cr = 0) then Legacy.NonFinite
    else
      Legacy.Ok ((cr, (λ r, r / pysum cr * 100) <$> cr),
                 Legacy.set_channel_contributions ((λ r, r / pysum cr * 100) <$> cr)
                   (Legacy.set_raw_total_reach (Legacy.np (pysum cr))
                      (Legacy.set_channel_reach cr c))).
Proof.
  intros c cr HU. unfold Legacy.calculate_channel_reach.
  change (Legacy.channel_reach c) with (∅ : gmap string R).
  change (Legacy.distributed_impressions c) with di.
  rewrite legacy_first_loop by done. fold cr. simpl.
  unfold Legacy.sum. case_decide as Hempty.
  - rewrite Hempty, map_fold_empty. done.
  - case_decide as Hz.
    + rewrite Hz. by rewrite legacy_contribution_fold_nonfinite.
    + by rewrite legacy_contribution_fold.
Qed.

Lemma legacy_efficiency_sum_empty c :
  Legacy.channel_reach c = ∅ →
  Legacy.efficiency_sum c = Legacy.Ok (Legacy.py 0).
Proof.
  intros He. unfold Legacy.efficiency_sum. by rewrite He, map_fold_empty.
Qed.

Lemma legacy_efficiency_sum_outcomes c :
  (∃ w, Legacy.efficiency_sum c = Legacy.Ok w)
  ∨ Legacy.efficiency_sum c = Legacy.Raise Legacy.KeyError.
Proof.
  unfold Legacy.efficiency_sum.
  induction (Legacy.channel_reach c) as [|i x m Hi Hfirst IH]
    using map_first_key_ind.
  - left. rewrite map_fold_empty. eauto.
  - rewrite map_fold_insert_first_key by done.
    destruct IH as [[w ->]| ->]; [|by right]. simpl.
    destruct (Legacy.efficiency_factors c !! i); eauto.
Qed.

Lemma legacy_efficiency_sum_missing c :
  (∃ ch, is_Some (Legacy.channel_reach c !! ch)
         ∧ Legacy.efficiency_factors c !! ch = None) →
  Legacy.efficiency_sum c = Legacy.Raise Legacy.KeyError.
Proof.
  pose proof (legacy_efficiency_sum_outcomes c) as Hout. revert Hout.
  unfold Legacy.efficiency_sum.
  induction (Legacy.channel_reach c) as [|i x m Hi Hfirst IH]
    using map_first_key_ind; intros Hout (ch & Hm & He).
  - rewrite lookup_empty in Hm. by destruct Hm.
  - rewrite map_fold_insert_first_key in Hout |- * by done.
    destruct (map_fold _ _ m) as [w|e|] eqn:Hfold.
    + simpl. destruct (decide (i = ch)) as [->|Hne].
      * by rewrite He.
      * exfalso. rewrite lookup_insert_ne in Hm by done.
        assert (Legacy.Ok w = Legacy.Raise Legacy.KeyError); [|done].
        apply IH; [eauto|]. by exists ch.
    + simpl in *. by destruct Hout as [[w Hw]|Hr].
    + simpl in *. by destruct Hout as [[w Hw]|Hr].
Qed.

Lemma legacy_efficiency_sum_present c w :
  Legacy.efficiency_sum c = Legacy.Ok w →
  ∀ ch, is_Some (Legacy.channel_reach c !! ch) →
        is_Some (Legacy.efficiency_factors c !! ch).
Proof.
  intros Hw ch Hch.
  destruct (Legacy.efficiency_factors c !! ch) as [e|] eqn:He; [eauto|].
  rewrite legacy_efficiency_sum_missing in Hw; [done|]. by exists ch.
Qed.

Lemma legacy_stage1_inv c ret c1 :
  Legacy.calculate_channel_reach c = Legacy.Ok (ret, c1) →
  c1 = Legacy.set_channel_contributions ret.2
         (Legacy.set_raw_total_reach (Legacy.sum ret.1)
            (Legacy.set_channel_reach ret.1 c)).
Proof.
  unfold Legacy.calculate_channel_reach.
  destruct (map_fold (Legacy.channel_reach_step c) _ _) as [cr|e|]; [|done..].
  simpl. destruct (map_fold (Legacy.contribution_step _) _ _) as [cc|e|]; [|done..].
  simpl. by intros [= <- <-].
Qed.

(** X12. The earlier class has no guard for an empty plan: when
    [total_universe] is 0, or when no channel of [distributed_impressions]
    has a penetration entry, its run raises [ZeroDivisionError] (the
    validated class returns zeros for a plan without counted channel). *)
Theorem X12_legacy_degenerate_plan_raises U I mrp gof di cp ef :
  U = 0%Z ∨ (∀ ch, is_Some (di !! ch) → cp !! ch = None) →
  Legacy.run_all_calculations (Legacy.init U I mrp gof di cp ef)
  = Legacy.Raise Legacy.ZeroDivisionError.
Proof.
  set (c := Legacy.init U I mrp gof di cp ef).
  assert (Huncounted : (∀ ch, is_Some (di !! ch) → cp !! ch = None) →
            Legacy.run_all_calculations c
            = Legacy.Raise Legacy.ZeroDivisionError).
  { intros Hnone. unfold Legacy.run_all_calculations, Legacy.calculate_channel_reach.
    change (Legacy.channel_reach c) with (∅ : gmap string R).
    change (Legacy.distributed_impressions c) with di.
    rewrite legacy_first_loop_uncounted by done. simpl.
    unfold Legacy.sum. rewrite decide_True by done. rewrite map_fold_empty. simpl.
    unfold Legacy.calculate_total_reach.
    rewrite legacy_efficiency_sum_empty by done. simpl.
    by rewrite legacy_div_py_zero. }
  intros [HU|Hnone]; [|by apply Huncounted].
  destruct (Classical_Prop.classic (∃ ch, is_Some (di !! ch) ∧ is_Some (cp !! ch)))
    as [Hex|Hnex].
  - unfold Legacy.run_all_calculations, Legacy.calculate_channel_reach.
    change (Legacy.channel_reach c) with (∅ : gmap string R).
    change (Legacy.distributed_impressions c) with di.
    by rewrite legacy_first_loop_zero_universe.
  - apply Huncounted. intros ch Hdi.
    destruct (cp !! ch) as [pen|] eqn:Hcp; [|done].
    exfalso. apply Hnex. exists ch. by rewrite Hcp.
Qed.

Lemma X12_witness :
  Legacy.run_all_calculations
    (Legacy.init 1000000 1000000 90 0.5 {["A" := 1000000%Z]} ∅ ∅)
  = Legacy.Raise Legacy.ZeroDivisionError.
Proof.
  apply X12_legacy_degenerate_plan_raises. right.
  intros ch _. apply lookup_empty.
Defined.

(** X13. The earlier class has no default efficiency: when its Channel
    Reach Stage has returned and some channel with a reach has no entry
    in [efficiency_factors], the Total Reach Stage, and with it the run,
    raises [KeyError] (the validated class uses 0.5). *)
Theorem X13_legacy_missing_efficiency_raises U I mrp gof di cp ef cr cc c1 :
  Legacy.calculate_channel_reach (Legacy.init U I mrp gof di cp ef)
  = Legacy.Ok ((cr, cc), c1) →
  (∃ ch, is_Some (cr !! ch) ∧ ef !! ch = None) →
  Legacy.calculate_total_reach c1 = Legacy.Raise Legacy.KeyError
  ∧ Legacy.run_all_calculations (Legacy.init U I mrp gof di cp ef)
    = Legacy.Raise Legacy.KeyError.
Proof.
  intros H1 Hmissing.
  assert (H2 : Legacy.calculate_total_reach c1 = Legacy.Raise Legacy.KeyError).
  { unfold Legacy.calculate_total_reach.
    rewrite legacy_efficiency_sum_missing; [done|].
    apply legacy_stage1_inv in H1 as ->. exact Hmissing. }
  split; [exact H2|].
  unfold Legacy.run_all_calculations. rewrite H1. simpl. by rewrite H2.
Qed.

Lemma legacy_ladder_fold x (n : nat) (lo : Z) er0 cur0 :
  let st := foldl (Legacy.effective_reach_step x) (er0, cur0)
              (seqZ lo (Z.of_nat n)) in
  st.2 = cur0 * (1 - x) ^ n
  ∧ ∀ k, (lo ≤ k < lo + Z.of_nat n)%Z →
         st.1 !! threshold_key k = Some (cur0 * (1 - x) ^ Z.to_nat (k - lo + 1)).
Proof.
  induction n as [|n IH].
  - simpl. split; [lra|]. intros k Hk. lia.
  - rewrite seqZ_S, foldl_app. cbv zeta in *.
    destruct (foldl (Legacy.effective_reach_step x) (er0, cur0)
                (seqZ lo (Z.of_nat n))) as [er cur].
    simpl in *. destruct IH as (Hcur & Hin).
    split; [rewrite Hcur; lra|].
    intros k Hk. destruct (decide (k = lo + Z.of_nat n)%Z) as [->|Hne].
    + rewrite lookup_insert_eq. f_equal. rewrite Hcur.
      replace (Z.to_nat (lo + Z.of_nat n - lo + 1)) with (S n) by lia.
      simpl. lra.
    + rewrite lookup_insert_ne.
      * apply Hin. lia.
      * intros Heq. apply threshold_key_inj in Heq. lia.
Qed.

Lemma legacy_stage2_inv c fr c2 :
  Legacy.calculate_total_reach c = Legacy.Ok (fr, c2) →
  c2 = Legacy.set_final_reach fr
         (Legacy.set_overlapped_reach
            (Legacy.mul (Legacy.raw_total_reach c)
               (Legacy.py (1 - Legacy.global_overlap_factor c))) c).
Proof.
  unfold Legacy.calculate_total_reach.
  destruct (Legacy.efficiency_sum c) as [w|e|]; [|done..]. simpl.
  destruct (Legacy.div w _) as [we|e|]; [|done..]. simpl.
  by intros [= <- <-].
Qed.

Lemma legacy_stage3_inv c af c3 :
  Legacy.calculate_frequency c = Legacy.Ok (af, c3) →
  c3 = Legacy.set_average_frequency af c.
Proof.
  unfold Legacy.calculate_frequency. case_decide.
  - destruct (Legacy.div _ _) as [f|e|]; [|done..]. simpl. by intros [= <- <-].
  - by intros [= <- <-].
Qed.

Lemma legacy_stage4_inv c max_frequency l c4 :
  Legacy.calculate_effective_reach c max_frequency = Legacy.Ok (l, c4) →
  Legacy.total_universe c ≠ 0%Z
  ∧ Legacy.val (Legacy.average_frequency c) ≠ 0
  ∧ c4 = Legacy.set_effective_reach l c
  ∧ ∀ k, (2 ≤ k ≤ max_frequency)%Z →
      l !! threshold_key k
      = Some (Legacy.val (Legacy.final_reach c) / IZR (Legacy.total_universe c) * 100
              * (1 - 1 / Legacy.val (Legacy.average_frequency c))
                ^ Z.to_nat (k - 1)).
Proof.
  unfold Legacy.calculate_effective_reach.
  destruct (Legacy.div (Legacy.final_reach c) _) as [q|e|] eqn:Dq; [|done..].
  cbn [mbind Legacy.outcome_bind].
  destruct (Legacy.div (Legacy.py 1) _) as [x|e|] eqn:Dx; [|done..].
  cbn [mbind Legacy.outcome_bind]. intros [= <- <-].
  apply legacy_div_inv in Dq as [HU Hq]. apply legacy_div_inv in Dx as [Ha Hx].
  simpl in HU, Hq, Hx.
  split; [intros Hz; apply HU; by rewrite Hz|]. split; [done|]. split; [done|].
  intros k Hk. unfold range.
  destruct (legacy_ladder_fold (Legacy.val x) (Z.to_nat (max_frequency + 1 - 2)) 2
              (Legacy.effective_reach c) (Legacy.val q * 100)) as (_ & Hin).
  rewrite Z2Nat.id in Hin by lia. rewrite Hin by lia.
  rewrite Hq, Hx. do 3 f_equal. lia.
Qed.

(** Everything a returned run of the earlier class determines. *)
Lemma legacy_run_inv U I mrp gof di cp ef r c' :
  Legacy.run_all_calculations (Legacy.init U I mrp gof di cp ef)
  = Legacy.Ok (r, c') →
  let cr := Legacy.reaches_of (Legacy.init U I mrp gof di cp ef) di in
  U ≠ 0%Z ∧ pysum cr ≠ 0
  ∧ (∀ ch, is_Some (cr !! ch) → is_Some (ef !! ch))
  ∧ Results.channel_contributions r = (λ v, v / pysum cr * 100) <$> cr
  ∧ Results.raw_reach_percent r = pysum cr / IZR U * 100
  ∧ Results.overlapped_reach_percent r = pysum cr * (1 - gof) / IZR U * 100
  ∧ 0 < Results.final_reach r
  ∧ Results.final_reach r <= mrp / 100 * IZR U
  ∧ Results.final_reach_percent r = Results.final_reach r / IZR U * 100
  ∧ Results.average_frequency r = IZR I / Results.final_reach r
  ∧ Results.average_frequency r ≠ 0
  ∧ ∀ k, (2 ≤ k ≤ 6)%Z →
      Results.effective_reach r !! threshold_key k
      = Some (Results.final_reach_percent r
              * (1 - 1 / Results.average_frequency r) ^ Z.to_nat (k - 1)).
Proof.
  set (c := Legacy.init U I mrp gof di cp ef). intros Hrun cr.
  unfold Legacy.run_all_calculations in Hrun.
  destruct (Legacy.calculate_channel_reach c) as [[[cr' cc'] c1]|e|] eqn:H1;
    [|done..]. simpl in Hrun.
  destruct (Legacy.calculate_total_reach c1) as [[fr c2]|e|] eqn:H2;
    [|done..]. simpl in Hrun.
  destruct (Legacy.calculate_frequency c2) as [[af c3]|e|] eqn:H3;
    [|done..]. simpl in Hrun.
  destruct (Legacy.calculate_effective_reach c3 6) as [[l c4]|e|] eqn:H4;
    [|done..]. simpl in Hrun.
  apply legacy_stage4_inv in H4 as (HU & Haf & -> & Hlk).
  pose proof (legacy_stage1_inv _ _ _ H1) as Hc1.
  pose proof (legacy_stage2_inv _ _ _ H2) as Hc2.
  pose proof (legacy_stage3_inv _ _ _ H3) as Hc3.
  assert (HUz : U ≠ 0%Z) by (by subst c3 c2 c1).
  clear HU.
  pose proof (legacy_stage1_fresh U I mrp gof di cp ef HUz) as Hs1.
  cbv zeta in Hs1. fold c in Hs1. fold cr in Hs1. rewrite Hs1 in H1.
  clear Hs1 Hc1 Hc2 Hc3.
  destruct (decide (cr = ∅)) as [Hempty|Hne].
  { injection H1 as <- <- <-. exfalso. revert H2.
    unfold Legacy.calculate_total_reach.
    rewrite legacy_efficiency_sum_empty by done. simpl.
    by rewrite legacy_div_py_zero. }
  destruct (decide (pysum cr = 0)) as [Hz|Hnz]; [done|].
  injection H1 as <- <- <-.
  revert H2. unfold Legacy.calculate_total_reach.
  destruct (Legacy.efficiency_sum _) as [w|e|] eqn:Hw; [|done..].
  cbn [mbind Legacy.outcome_bind].
  rewrite legacy_div_Ok by done. cbn [mbind Legacy.outcome_bind].
  set (fin := Legacy.min _ _).
  assert (Hfin : Legacy.val fin <= mrp / 100 * IZR U).
  { subst fin. unfold Legacy.min. case_decide; simpl in *; lra. }
  intros [= <- <-].
  pose proof (legacy_efficiency_sum_present _ _ Hw) as Hpresent.
  simpl in Hpresent.
  revert H3. unfold Legacy.calculate_frequency.
  cbn [Legacy.final_reach Legacy.set_final_reach].
  case_decide as Hpos.
  2: { intros [= <- <-]. by simpl in Haf. }
  rewrite legacy_div_Ok by lra. cbn [mbind Legacy.outcome_bind].
  intros [= <- <-].
  cbn [Legacy.average_frequency Legacy.set_average_frequency Legacy.val
       Legacy.final_reach Legacy.set_final_reach Legacy.total_universe
       Legacy.set_overlapped_reach Legacy.set_channel_contributions
       Legacy.set_raw_total_reach Legacy.set_channel_reach Legacy.py] in Haf, Hlk.
  assert (HUR : IZR U ≠ 0) by (intros Hz; by apply eq_IZR_R0 in Hz).
  revert Hrun.
  cbn [Legacy.average_frequency Legacy.set_average_frequency
       Legacy.final_reach Legacy.set_final_reach Legacy.total_universe
       Legacy.set_overlapped_reach Legacy.set_channel_contributions
       Legacy.set_raw_total_reach Legacy.set_channel_reach
       Legacy.set_effective_reach Legacy.raw_total_reach
       Legacy.overlapped_reach Legacy.channel_contributions
       Legacy.effective_reach Legacy.init Legacy.global_overlap_factor c].
  rewrite !legacy_div_Ok by done. cbn [mbind Legacy.outcome_bind].
  intros [= <- <-].
  cbn [Results.channel_contributions Results.raw_reach_percent
       Results.overlapped_reach_percent Results.final_reach
       Results.final_reach_percent Results.average_frequency
       Results.effective_reach Legacy.val Legacy.mul Legacy.np Legacy.py].
  split_and!; done.
Qed.

Lemma legacy_min_val a b :
  Legacy.val (Legacy.min a b) = Rmin (Legacy.val a) (Legacy.val b).
Proof.
  unfold Legacy.min, Rmin. case_decide; destruct (Rle_dec _ _); lra.
Qed.

Lemma legacy_single_reaches I ef :
  Legacy.reaches_of (Legacy.single_channel I ef) {["A" := 1000000%Z]}
  = {["A" := 1000000 * (1 - exp (- (1)))]}.
Proof.
  unfold Legacy.reaches_of. rewrite <- insert_empty, map_imap_insert.
  rewrite map_imap_empty. simpl. rewrite lookup_singleton_eq. simpl.
  rewrite insert_empty. f_equal. f_equal; [lra|]. do 2 f_equal. field.
Qed.

Lemma legacy_single_reach_bounds :
  500000 < 1000000 * (1 - exp (- (1))) < 1000000.
Proof.
  pose proof exp_minus_one_lt_half. pose proof (exp_pos (- (1))). lra.
Qed.

Lemma legacy_single_stage1 I ef :
  ∃ cc c1,
    Legacy.calculate_channel_reach (Legacy.single_channel I ef)
    = Legacy.Ok (({["A" := 1000000 * (1 - exp (- (1)))]}, cc), c1).
Proof.
  pose proof legacy_single_reach_bounds as Hv.
  pose proof (legacy_stage1_fresh 1000000 I 90 0.5 {["A" := 1000000%Z]}
                {["A" := 1]} ef ltac:(lia)) as H1.
  cbv zeta in H1. fold (Legacy.single_channel I ef) in H1.
  rewrite legacy_single_reaches in H1.
  rewrite decide_False in H1.
  2: { intros H. apply (f_equal (.!! "A")) in H.
       by rewrite lookup_singleton_eq, lookup_empty in H. }
  rewrite pysum_singleton in H1. rewrite decide_False in H1 by lra.
  eauto.
Qed.

Lemma X13_witness :
  ∃ cr cc c1,
    Legacy.calculate_channel_reach (Legacy.single_channel 1000000 ∅)
    = Legacy.Ok ((cr, cc), c1)
    ∧ Legacy.run_all_calculations (Legacy.single_channel 1000000 ∅)
      = Legacy.Raise Legacy.KeyError.
Proof.
  destruct (legacy_single_stage1 1000000 ∅) as (cc & c1 & H1).
  eexists _, cc, c1. split; [exact H1|].
  destruct (X13_legacy_missing_efficiency_raises _ _ _ _ _ _ _ _ _ _ H1)
    as [_ Hrun]; [|exact Hrun].
  exists "A". split; [|apply lookup_empty].
  rewrite lookup_singleton_eq. eauto.
Defined.

(** The single-channel plan with efficiency 0.7 runs to a result in the
    earlier class whenever [total_impressions] is not 0. *)
Lemma legacy_single_channel_run I :
  I ≠ 0%Z →
  ∃ r c',
    Legacy.run_all_calculations (Legacy.single_channel I {["A" := 0.7]})
    = Legacy.Ok (r, c')
    ∧ 175000 < Results.final_reach r.
Proof.
  intros HI. pose proof legacy_single_reach_bounds as Hv.
  set (v := 1000000 * (1 - exp (- (1)))) in *.
  pose proof (legacy_stage1_fresh 1000000 I 90 0.5 {["A" := 1000000%Z]}
                {["A" := 1]} {["A" := 0.7]} ltac:(lia)) as H1.
  cbv zeta in H1. fold (Legacy.single_channel I {["A" := 0.7]}) in H1.
  rewrite legacy_single_reaches in H1. fold v in H1.
  rewrite decide_False in H1.
  2: { intros H. apply (f_equal (.!! "A")) in H.
       by rewrite lookup_singleton_eq, lookup_empty in H. }
  rewrite pysum_singleton in H1. rewrite decide_False in H1 by lra.
  unfold Legacy.run_all_calculations. rewrite H1.
  cbn [mbind Legacy.outcome_bind].
  unfold Legacy.calculate_total_reach, Legacy.efficiency_sum.
  cbn [Legacy.channel_reach Legacy.set_channel_contributions
       Legacy.set_raw_total_reach Legacy.set_channel_reach
       Legacy.efficiency_factors Legacy.raw_total_reach Legacy.single_channel
       Legacy.init Legacy.global_overlap_factor Legacy.max_reach_percent
       Legacy.total_universe].
  rewrite map_fold_singleton. cbn [mbind Legacy.outcome_bind].
  rewrite lookup_singleton_eq. cbn [mbind Legacy.outcome_bind].
  rewrite legacy_div_Ok by (simpl; lra). cbn [mbind Legacy.outcome_bind].
  set (fin := Legacy.min _ _).
  assert (Hfin : Legacy.val fin = 0.35 * v).
  { subst fin. rewrite legacy_min_val. simpl.
    assert (Hwe : (0 + 0.7 * v) / v = 0.7).
    { apply Rmult_eq_reg_r with v; [|lra].
      unfold Rdiv. rewrite Rmult_assoc, Rinv_l by lra. lra. }
    rewrite Hwe. rewrite Rmin_left by lra. lra. }
  unfold Legacy.calculate_frequency.
  cbn [Legacy.final_reach Legacy.set_final_reach Legacy.total_impressions
       Legacy.set_overlapped_reach Legacy.set_channel_contributions
       Legacy.set_raw_total_reach Legacy.set_channel_reach
       Legacy.single_channel Legacy.init].
  rewrite decide_True by lra. rewrite legacy_div_Ok by lra.
  cbn [mbind Legacy.outcome_bind].
  unfold Legacy.calculate_effective_reach.
  cbn [Legacy.final_reach Legacy.set_final_reach Legacy.total_universe
       Legacy.set_overlapped_reach Legacy.set_channel_contributions
       Legacy.set_raw_total_reach Legacy.set_channel_reach
       Legacy.set_average_frequency Legacy.average_frequency
       Legacy.single_channel Legacy.init].
  rewrite (legacy_div_Ok fin) by (cbn [Legacy.val Legacy.py]; lra).
  cbn [mbind Legacy.outcome_bind].
  rewrite legacy_div_Ok.
  2: { cbn [Legacy.val Legacy.py]. assert (HIR : IZR I ≠ 0) by (intros Hz; by apply eq_IZR_R0 in Hz).
       intros Hz. apply HIR.
       assert (Heq : IZR I = IZR I / Legacy.val fin * Legacy.val fin).
       { unfold Rdiv. rewrite Rmult_assoc, Rinv_l by lra. lra. }
       rewrite Heq, Hz. lra. }
  cbn [mbind Legacy.outcome_bind].
  cbn [Legacy.final_reach Legacy.set_final_reach Legacy.total_universe
       Legacy.set_overlapped_reach Legacy.set_channel_contributions
       Legacy.set_raw_total_reach Legacy.set_channel_reach
       Legacy.set_average_frequency Legacy.average_frequency
       Legacy.set_effective_reach Legacy.raw_total_reach
       Legacy.overlapped_reach Legacy.single_channel Legacy.init].
  rewrite !legacy_div_Ok by (cbn [Legacy.val Legacy.py]; lra).
  cbn [mbind Legacy.outcome_bind].
  eexists _, _. split; [reflexivity|].
  cbn [Results.final_reach]. lra.
Qed.

(** X14. What a returned run of the earlier class guarantees: the
    contributions sum to 100; [overlapped_reach_percent] is
    [raw_reach_percent * (1 - global_overlap_factor)] (this class assigns
    [overlapped_reach]); [final_reach] is positive and at most the cap;
    the average frequency is the unclamped [total_impressions /
    final_reach]; neither [total_universe] nor [total_impressions] is 0;
    and every channel with a contribution has impressions, a penetration
    and an efficiency factor. *)
Theorem X14_legacy_returned_run U I mrp gof di cp ef r c' :
  Legacy.run_all_calculations (Legacy.init U I mrp gof di cp ef)
  = Legacy.Ok (r, c') →
  pysum (Results.channel_contributions r) = 100
  ∧ Results.overlapped_reach_percent r = Results.raw_reach_percent r * (1 - gof)
  ∧ 0 < Results.final_reach r <= mrp / 100 * IZR U
  ∧ Results.average_frequency r * Results.final_reach r = IZR I
  ∧ U ≠ 0%Z ∧ I ≠ 0%Z
  ∧ (∀ ch, is_Some (Results.channel_contributions r !! ch) →
           is_Some (di !! ch) ∧ is_Some (cp !! ch) ∧ is_Some (ef !! ch)).
Proof.
  intros Hrun. apply legacy_run_inv in Hrun. cbv zeta in Hrun.
  set (cr := Legacy.reaches_of _ di) in *.
  destruct Hrun as (HU & Hraw & Hef & Hcc & Hrp & Hop & Hf & Hcap & _ & Haf
                    & Hafnz & _).
  assert (HUR : IZR U ≠ 0) by (intros Hz; by apply eq_IZR_R0 in Hz).
  split; [rewrite Hcc, pysum_scale; by field|].
  split; [rewrite Hop, Hrp; by field|].
  split; [done|].
  assert (Hprod : Results.average_frequency r * Results.final_reach r = IZR I).
  { rewrite Haf. unfold Rdiv. rewrite Rmult_assoc, Rinv_l by lra. lra. }
  split; [done|]. split; [done|]. split.
  - intros ->. apply Hafnz. rewrite Haf. unfold Rdiv. lra.
  - intros ch Hch. rewrite Hcc, lookup_fmap in Hch.
    apply fmap_is_Some in Hch. pose proof (Hef ch Hch) as He.
    unfold cr, Legacy.reaches_of in Hch. rewrite map_lookup_imap in Hch.
    simpl in Hch.
    destruct (di !! ch) as [imp|]; [|by destruct Hch]. simpl in Hch.
    destruct (cp !! ch) as [pen|]; [|by destruct Hch]. eauto.
Qed.

Lemma X14_witness :
  ∃ r c',
    Legacy.run_all_calculations (Legacy.single_channel 1000000 {["A" := 0.7]})
    = Legacy.Ok (r, c')
    ∧ pysum (Results.channel_contributions r) = 100
    ∧ Results.overlapped_reach_percent r = Results.raw_reach_percent r * (1 - 0.5).
Proof.
  destruct (legacy_single_channel_run 1000000 ltac:(lia)) as (r & c' & Hrun & _).
  exists r, c'. split; [exact Hrun|].
  destruct (X14_legacy_returned_run _ _ _ _ _ _ _ _ _ Hrun) as (Hsum & Hov & _).
  split; [exact Hsum|exact Hov].
Defined.

(** X15. The ladder of the earlier class is the bare geometric sequence
    [final_reach_percent * (1 - 1 / average_frequency)^(k-1)], without
    clamp; with a positive universe and [0 < total_impressions <
    final_reach] (average frequency below 1) the effective reach it
    reports at ["2+"] is negative. *)
Theorem X15_legacy_ladder_unclamped U I mrp gof di cp ef r c' :
  Legacy.run_all_calculations (Legacy.init U I mrp gof di cp ef)
  = Legacy.Ok (r, c') →
  (∀ k, (2 ≤ k ≤ 6)%Z →
        Results.effective_reach r !! threshold_key k
        = Some (Results.final_reach_percent r
                * (1 - 1 / Results.average_frequency r) ^ Z.to_nat (k - 1)))
  ∧ ((0 < U)%Z → (0 < I)%Z → IZR I < Results.final_reach r →
     ∃ v, Results.effective_reach r !! "2+" = Some v ∧ v < 0).
Proof.
  intros Hrun. apply legacy_run_inv in Hrun. cbv zeta in Hrun.
  destruct Hrun as (_ & _ & _ & _ & _ & _ & Hf & _ & Hfp & Haf & _ & Hlk).
  split; [exact Hlk|].
  intros HU HI Hlt. eexists. split; [exact (Hlk 2%Z ltac:(lia))|].
  apply (IZR_lt 0) in HU, HI.
  assert (Hrp : 0 < Results.final_reach_percent r).
  { rewrite Hfp. apply Rmult_lt_0_compat; [|lra]. by apply Rdiv_lt_0_compat. }
  assert (Hx : 1 < 1 / Results.average_frequency r).
  { rewrite Haf. unfold Rdiv. rewrite Rmult_1_l, Rinv_mult, Rinv_inv.
    apply Rmult_lt_reg_l with (IZR I); [done|].
    rewrite <- Rmult_assoc, Rinv_r by lra. lra. }
  simpl. set (x := 1 / Results.average_frequency r) in *.
  replace (Results.final_reach_percent r * ((1 - x) * 1))
    with (- (Results.final_reach_percent r * (x - 1))) by lra.
  apply Ropp_lt_gt_0_contravar. apply Rmult_lt_0_compat; lra.
Qed.

Lemma X15_witness :
  ∃ r c',
    Legacy.run_all_calculations (Legacy.single_channel 1 {["A" := 0.7]})
    = Legacy.Ok (r, c')
    ∧ ∃ v, Results.effective_reach r !! "2+" = Some v ∧ v < 0.
Proof.
  destruct (legacy_single_channel_run 1 ltac:(lia)) as (r & c' & Hrun & Hf).
  exists r, c'. split; [exact Hrun|].
  destruct (X15_legacy_ladder_unclamped _ _ _ _ _ _ _ _ _ Hrun) as [_ Hneg].
  apply Hneg; [lia|lia|lra].
Defined.
